(** * deploy.py of kdvol.github.io: a shallow embedding and its properties

    The script classifies newsletter files by name, extracts a date and a
    summary, splices links into HTML index pages and commits the result.
    Python text is modelled as a list of Unicode code points, the regular
    expressions of the script as terms run by a backtracking matcher with
    Python's priorities, and the input/output of the script as a state and
    error monad over a file system, a console and a version-control oracle. *)

From Stdlib Require Import NArith ZArith Ascii String Lia Sorted.
From stdpp Require Import base list option gmap.

Set Default Proof Using "Type".
Local Open Scope N_scope.

(** ** Text *)

(** A Python [str]: a sequence of code points. *)
Definition char := N.
Definition str := list char.

(** Literals are written as UTF-8 text and decoded once. *)
Fixpoint utf8_go (need : nat) (acc : N) (bs : list N) : str :=
  match bs with
  | [] => []
  | b :: t =>
    match need with
    | O =>
      if b <? 128 then b :: utf8_go 0 0 t
      else if b <? 224 then utf8_go 1 (b - 192) t
      else if b <? 240 then utf8_go 2 (b - 224) t
      else utf8_go 3 (b - 240) t
    | S k =>
      let acc' := acc * 64 + (b - 128) in
      match k with
      | O => acc' :: utf8_go 0 0 t
      | S _ => utf8_go k acc' t
      end
    end
  end.

Definition utf8 (s : string) : str :=
  utf8_go 0 0 (List.map N_of_ascii (list_ascii_of_string s)).
Global Arguments utf8 : simpl never.

(** The double quote and the line feed cannot be written inside a literal. *)
Definition dq : str := [34].
Definition nl : str := [10].

(** [len(s)], [s[:k]] and [s[k:]] are [length], [take] and [drop]. *)

(** [s.startswith(p)] *)
Fixpoint startswith (p s : str) : bool :=
  match p, s with
  | [], _ => true
  | _ :: _, [] => false
  | a :: p', b :: s' => (a =? b) && startswith p' s'
  end.

(** The index of the first occurrence of [p] in [s]. *)
Fixpoint index_of (p s : str) : option nat :=
  if startswith p s then Some O
  else match s with
       | [] => None
       | _ :: t => S <$> index_of p t
       end.

(** [p in s] *)
Definition contains (p s : str) : bool :=
  match index_of p s with
  | Some _ => true
  | None => false
  end.

(** [s.find(p)] and [s.find(p, start)], with Python's -1 for no occurrence. *)
Definition str_find (p s : str) : Z :=
  match index_of p s with
  | Some i => Z.of_nat i
  | None => (-1)%Z
  end.

Definition str_find_from (p s : str) (start : Z) : Z :=
  if (start <? 0)%Z then (-1)%Z
  else if (Z.of_nat (length s) <? start)%Z then (-1)%Z
  else match index_of p (drop (Z.to_nat start) s) with
       | Some i => (start + Z.of_nat i)%Z
       | None => (-1)%Z
       end.

(** [s.replace(old, new)]: every occurrence, left to right, not overlapping.
    [skip] counts the characters of the occurrence just replaced that are
    still ahead. *)
Fixpoint replace_go (old new : str) (skip : nat) (s : str) : str :=
  match s with
  | [] => []
  | c :: t =>
    match skip with
    | S k => replace_go old new k t
    | O =>
      if startswith old s then new ++ replace_go old new (length old - 1) t
      else c :: replace_go old new 0 t
    end
  end.

Definition str_replace (s old new : str) : str :=
  match old with
  | [] => new ++ flat_map (fun c => c :: new) s
  | _ :: _ => replace_go old new 0 s
  end.

(** [s.split(sep)] and [s.split(sep, maxsplit)] for a separator that is not
    empty (Python raises ValueError on an empty one; the script has none).
    [cur] holds the current piece, reversed. *)
Fixpoint split_go (sep : str) (limit : option nat) (skip : nat) (cur s : str)
  : list str :=
  match s with
  | [] => [reverse cur]
  | c :: t =>
    match skip with
    | S k => split_go sep limit k cur t
    | O =>
      if bool_decide (limit ≠ Some O) && startswith sep s
      then reverse cur :: split_go sep (Nat.pred <$> limit) (length sep - 1) [] t
      else split_go sep limit 0 (c :: cur) t
    end
  end.

Definition str_split (s sep : str) (maxsplit : option nat) : list str :=
  split_go sep maxsplit 0 [] s.

(** [sep.join(parts)] *)
Fixpoint str_join (sep : str) (parts : list str) : str :=
  match parts with
  | [] => []
  | [p] => p
  | p :: ps => p ++ sep ++ str_join sep ps
  end.

(** ** Character classes of Python 3 text patterns *)

Definition in_ranges (tbl : list (N * N)) (c : char) : bool :=
  existsb (fun r => (r.1 <=? c) && (c <=? r.2)) tbl.

(** [str.isspace], which is also [\s]: the white space of Unicode. *)
Definition space_ranges : list (N * N) :=
  [(9, 13); (28, 32); (133, 133); (160, 160); (5760, 5760); (8192, 8202);
   (8232, 8233); (8239, 8239); (8287, 8287); (12288, 12288)].

Definition is_space : char -> bool := in_ranges space_ranges.

(** [\d]: the decimal digits of Unicode (category Nd, Unicode 14). *)
Definition digit_ranges : list (N * N) :=
  [(48, 57); (1632, 1641); (1776, 1785); (1984, 1993); (2406, 2415);
   (2534, 2543); (2662, 2671); (2790, 2799); (2918, 2927); (3046, 3055);
   (3174, 3183); (3302, 3311); (3430, 3439); (3558, 3567); (3664, 3673);
   (3792, 3801); (3872, 3881); (4160, 4169); (4240, 4249); (6112, 6121);
   (6160, 6169); (6470, 6479); (6608, 6617); (6784, 6793); (6800, 6809);
   (6992, 7001); (7088, 7097); (7232, 7241); (7248, 7257); (42528, 42537);
   (43216, 43225); (43264, 43273); (43472, 43481); (43504, 43513);
   (43600, 43609); (44016, 44025); (65296, 65305); (66720, 66729);
   (68912, 68921); (69734, 69743); (69872, 69881); (69942, 69951);
   (70096, 70105); (70384, 70393); (70736, 70745); (70864, 70873);
   (71248, 71257); (71360, 71369); (71472, 71481); (71904, 71913);
   (72016, 72025); (72784, 72793); (73040, 73049); (73120, 73129);
   (92768, 92777); (92864, 92873); (93008, 93017); (120782, 120831);
   (123200, 123209); (123632, 123641); (125264, 125273); (130032, 130041)].

Definition is_digit : char -> bool := in_ranges digit_ranges.

(** [.] without DOTALL: anything but a line feed. *)
Definition not_newline (c : char) : bool := negb (c =? 10).

(** [[^x]] for a single character [x]. *)
Definition not_char (x : char) (c : char) : bool := negb (c =? x).

(** [s.strip()] *)
Fixpoint lstrip (s : str) : str :=
  match s with
  | [] => []
  | c :: t => if is_space c then lstrip t else s
  end.

Definition rstrip (s : str) : str := reverse (lstrip (reverse s)).
Definition strip (s : str) : str := rstrip (lstrip s).

Local Close Scope N_scope.

(** ** Regular expressions

    The patterns of the script use literals, repetitions of a character
    class (greedy, or lazy as in [.*?]), concatenation and capturing groups.
    [Rep p lo hi greedy] is [p{lo,hi}], with [hi = None] for no upper bound. *)
Inductive regex :=
| Lit (s : str)
| Rep (p : char -> bool) (lo : nat) (hi : option nat) (greedy : bool)
| Cat (r1 r2 : regex)
| Grp (r : regex).

(** One way of matching at the start of a text: the groups in the order of
    their opening parentheses, the text matched, and the text left. *)
Record attempt := Attempt { groups : list str; whole : str; rest : str }.

(** The length of the longest prefix of [s] made of characters of [p], not
    beyond [hi]. *)
Fixpoint run_length (p : char -> bool) (hi : option nat) (s : str) : nat :=
  match s with
  | [] => O
  | c :: t =>
    if bool_decide (hi = Some O) then O
    else if p c then S (run_length p (Nat.pred <$> hi) t)
    else O
  end.

(** The counts a repetition tries, in the order it tries them. *)
Definition rep_counts (lo n : nat) (greedy : bool) : list nat :=
  let up := seq lo (S n - lo) in
  if greedy then reverse up else up.

(** Every way of matching [r] at the start of [s], in the order a
    backtracking matcher finds them. *)
Fixpoint attempts (r : regex) (s : str) : list attempt :=
  match r with
  | Lit p =>
    if startswith p s then [Attempt [] p (drop (length p) s)] else []
  | Rep p lo hi greedy =>
    (fun k => Attempt [] (take k s) (drop k s)) <$>
      rep_counts lo (run_length p hi s) greedy
  | Cat r1 r2 =>
    a1 ← attempts r1 s;
    (fun a2 => Attempt (groups a1 ++ groups a2) (whole a1 ++ whole a2) (rest a2))
      <$> attempts r2 (rest a1)
  | Grp r1 =>
    (fun a => Attempt (whole a :: groups a) (whole a) (rest a)) <$> attempts r1 s
  end.

(** The match the matcher reports at this position: its first success. *)
Definition match_at (r : regex) (s : str) : option attempt := head (attempts r s).

(** The first success that is not empty, for a search that must advance. *)
Definition match_at_nonempty (r : regex) (s : str) : option attempt :=
  head (filter (fun a => whole a ≠ []) (attempts r s)).

(** A match object of [re.search]: the text before it and the attempt. *)
Record found := Found { before : str; hit : attempt }.

(** [re.search(r, s)]: the leftmost position with a match. *)
Fixpoint search_go (r : regex) (pre s : str) : option found :=
  match match_at r s with
  | Some a => Some (Found (reverse pre) a)
  | None =>
    match s with
    | [] => None
    | c :: t => search_go r (c :: pre) t
    end
  end.

Definition search (r : regex) (s : str) : option found := search_go r [] s.

(** [m.group(i)] for [i >= 1]; a group that is absent gives the empty text
    here (every group of the script's patterns takes part in a match). *)
Definition group (i : nat) (a : attempt) : str := default [] (groups a !! pred i).

(** The scan behind [re.findall] and [re.sub]: the matches from left to
    right, not overlapping, and the characters between them. After an empty
    match the matcher must advance: it looks for a match that is not empty
    at the same place before it moves on. *)
Fixpoint scan (r : regex) (skip : nat) (s : str) : list (char + attempt) :=
  match s with
  | [] =>
    match skip with
    | O => match match_at r [] with Some a => [inr a] | None => [] end
    | S _ => []
    end
  | c :: t =>
    match skip with
    | S k => scan r k t
    | O =>
      match match_at r s with
      | None => inl c :: scan r 0 t
      | Some a =>
        match whole a with
        | _ :: w => inr a :: scan r (length w) t
        | [] =>
          inr a ::
          match match_at_nonempty r s with
          | Some a2 => inr a2 :: scan r (length (whole a2) - 1) t
          | None => inl c :: scan r 0 t
          end
        end
      end
    end
  end.

(** [re.findall(r, s)] for a pattern with one group: the group's texts. *)
Definition findall (r : regex) (s : str) : list str :=
  omap (fun x => match x with inr a => Some (group 1 a) | inl _ => None end)
       (scan r 0 s).

(** [re.sub(r, repl, s)] for a replacement without group references. *)
Definition sub (r : regex) (repl s : str) : str :=
  scan r 0 s ≫= (fun x => match x with inr _ => repl | inl c => [c] end).

(** ** Configuration *)

(** The content types of [TYPES]. *)
Inductive ctype := briefing | crypto | card | crypto_card | english.

Global Instance ctype_eq_dec : EqDecision ctype.
Proof. solve_decision. Defined.


(** A rule of [TYPES]: pattern, type, directory, suffix. *)
Definition rule : Type := str * ctype * str * str.

(** Type detection (order matters: longer prefix first). *)
Definition TYPES : list rule :=
  Eval vm_compute in
  [ (utf8 "순살크립토카드뉴스", crypto_card, utf8 "cardnews",    utf8 "-crypto");
    (utf8 "순살카드뉴스",       card,        utf8 "cardnews",    utf8 "");
    (utf8 "순살크립토",         crypto,      utf8 "newsletters", utf8 "-crypto");
    (utf8 "순살브리핑",         briefing,    utf8 "newsletters", utf8 "");
    (utf8 "SoonsalCrypto",      english,     utf8 "english",     utf8 "") ].

(** Tags for the main index. *)
Definition MAIN_TAGS (t : ctype) : str :=
  match t with
  | briefing =>
    utf8 "<span class=" ++ dq ++ utf8 "tag" ++ dq ++ utf8 " style=" ++ dq
      ++ utf8 "background:#F07040; color:#fff;" ++ dq ++ utf8 ">브리핑</span>"
  | crypto =>
    utf8 "<span class=" ++ dq ++ utf8 "tag tag-crypto" ++ dq ++ utf8 ">Crypto</span>"
  | card | crypto_card =>
    utf8 "<span class=" ++ dq ++ utf8 "tag tag-card" ++ dq ++ utf8 ">Card</span>"
  | english =>
    utf8 "<span class=" ++ dq ++ utf8 "tag tag-en" ++ dq ++ utf8 ">EN</span>"
  end.

(** Tags for the archive indexes. *)
Definition ARCHIVE_TAGS (t : ctype) : str :=
  match t with
  | briefing =>
    utf8 "<span class=" ++ dq ++ utf8 "tag tag-briefing" ++ dq ++ utf8 ">브리핑</span>"
  | crypto =>
    utf8 "<span class=" ++ dq ++ utf8 "tag tag-crypto" ++ dq ++ utf8 ">Crypto</span>"
  | card =>
    utf8 "<span class=" ++ dq ++ utf8 "tag tag-card" ++ dq ++ utf8 ">Card</span>"
  | crypto_card =>
    utf8 "<span class=" ++ dq ++ utf8 "tag tag-card tag-crypto" ++ dq
      ++ utf8 ">Card · Crypto</span>"
  | english =>
    utf8 "<span class=" ++ dq ++ utf8 "tag tag-en" ++ dq ++ utf8 ">EN</span>"
  end.

(** Content type labels. *)
Definition LABELS (t : ctype) : str :=
  match t with
  | briefing => utf8 "순살브리핑"
  | crypto => utf8 "순살크립토"
  | card => utf8 "순살카드뉴스"
  | crypto_card => utf8 "순살크립토카드뉴스"
  | english => utf8 ""
  end.


(** ** Helpers *)

(** Detect content type from filename pattern. *)
Fixpoint detect_type_in (rules : list rule) (filename : str)
  : option (ctype * str * str) :=
  match rules with
  | [] => None
  | (prefix, ct, directory, suffix) :: more =>
    if contains prefix filename then Some (ct, directory, suffix)
    else detect_type_in more filename
  end.

Definition detect_type (filename : str) : option (ctype * str * str) :=
  detect_type_in TYPES filename.

(** [(\d{4})(\d{2})(\d{2})] *)
Definition re_date : regex :=
  Cat (Grp (Rep is_digit 4 (Some 4%nat) true))
      (Cat (Grp (Rep is_digit 2 (Some 2%nat) true))
           (Grp (Rep is_digit 2 (Some 2%nat) true))).

(** The three results of [extract_date] and [get_hero_info] from the groups
    of a match: the year, the month and day, and the date with dots. *)
Definition date_parts (a : attempt) : str * str * str :=
  let yyyy := group 1 a in
  let mm := group 2 a in
  let dd := group 3 a in
  (yyyy, mm ++ dd, yyyy ++ utf8 "." ++ mm ++ utf8 "." ++ dd).

(** Extract date components from filename. *)
Definition extract_date (filename : str) : option (str * str * str) :=
  match search re_date filename with
  | Some m => Some (date_parts (hit m))
  | None => None
  end.

(** [<meta\s+name=\x22soonsal-keywords\x22\s+content=\x22([^\x22]+)\x22],
    with \x22 for the double quote. *)
Definition meta_name : str := utf8 "name=" ++ dq ++ utf8 "soonsal-keywords" ++ dq.
Definition meta_content : str := utf8 "content=" ++ dq.

Definition re_meta : regex :=
  Cat (Lit (utf8 "<meta"))
  (Cat (Rep is_space 1 None true)
  (Cat (Lit meta_name)
  (Cat (Rep is_space 1 None true)
  (Cat (Lit meta_content)
  (Cat (Grp (Rep (not_char 34%N) 1 None true))
       (Lit dq)))))).

(** [<h2 class="story-title">(.*?)</h2>] *)
Definition re_story : regex :=
  Cat (Lit (utf8 "<h2 class=" ++ dq ++ utf8 "story-title" ++ dq ++ utf8 ">"))
  (Cat (Grp (Rep not_newline 0 None false))
       (Lit (utf8 "</h2>"))).

(** [<[^>]+>] *)
Definition re_tag : regex :=
  Cat (Lit (utf8 "<")) (Cat (Rep (not_char 62%N) 1 None true) (Lit (utf8 ">"))).

(** [<title>(.*?)</title>] *)
Definition re_title : regex :=
  Cat (Lit (utf8 "<title>"))
  (Cat (Grp (Rep not_newline 0 None false))
       (Lit (utf8 "</title>"))).

(** The [for sep in seps: if sep in s: ...; break] loops of
    [extract_keywords]: the first separator of the list that occurs. *)
Fixpoint first_sep (seps : list str) (s : str) : option str :=
  match seps with
  | [] => None
  | sep :: more => if contains sep s then Some sep else first_sep more s
  end.

(** The separators of a story title and of a page title. *)
Definition story_seps : list str := Eval vm_compute in [utf8 " — "; utf8 "—"].
Definition title_seps : list str :=
  Eval vm_compute in [utf8 " — "; utf8 " | "; utf8 "—"; utf8 "|"].

(** The body of the loop over the story titles. *)
Definition story_keyword (t : str) : str :=
  let clean := strip (sub re_tag [] t) in
  match first_sep story_seps clean with
  | Some sep => strip (default [] (head (str_split clean sep None)))
  | None => strip (take 40 clean)
  end.

(** Extract keywords from HTML content for index entry. The content type
    is an argument the function never reads. *)
Definition extract_keywords (html : str) (ct : ctype) : str :=
  (* Priority 1: explicit meta tag *)
  match search re_meta html with
  | Some m => strip (group 1 (hit m))
  | None =>
    (* Priority 2: story-title extraction *)
    match findall re_story html with
    | (_ :: _) as titles => str_join (utf8 ", ") (story_keyword <$> titles)
    | [] =>
      (* Priority 3: title tag fallback *)
      match search re_title html with
      | Some m =>
        let t := strip (sub re_tag [] (group 1 (hit m))) in
        match first_sep title_seps t with
        | Some sep => strip (default [] (last (str_split t sep (Some 1%nat))))
        | None => t
        end
      | None => utf8 "Untitled"
      end
    end
  end.

(** Build an [<a>] tag for the index. *)
Definition build_link (href tag label keywords : str) : str :=
  let text :=
    match label with
    | [] => keywords
    | _ :: _ => label ++ utf8 " · " ++ keywords
    end in
  utf8 "<a href=" ++ dq ++ href ++ dq ++ utf8 " style=" ++ dq
    ++ utf8 "display:flex; align-items:center; gap:10px;" ++ dq ++ utf8 ">"
    ++ tag ++ text ++ utf8 "</a>".

(** [Latest &mdash; (\d{4})\.(\d{2})\.(\d{2})] *)
Definition re_hero : regex :=
  Cat (Lit (utf8 "Latest &mdash; "))
  (Cat (Grp (Rep is_digit 4 (Some 4%nat) true))
  (Cat (Lit (utf8 "."))
  (Cat (Grp (Rep is_digit 2 (Some 2%nat) true))
  (Cat (Lit (utf8 "."))
       (Grp (Rep is_digit 2 (Some 2%nat) true)))))).

(** Get current Hero date from main index. *)
Definition get_hero_info (content : str) : option (str * str * str) :=
  match search re_hero content with
  | Some m => Some (date_parts (hit m))
  | None => None
  end.



(** ** The world of the script *)

(** An entry of [items], the dictionary built in [main]. *)
Record item := Item {
  type : ctype;
  directory : str;
  yyyy : str;
  mmdd : str;
  date_formatted : str;
  keywords : str;
  deploy_path : str
}.

(** The files, by path, with their text. *)
Abbreviation files := (gmap str str).

(** What the script cannot see in its own code: the home directory and the
    version-control client, which returns a code and may change the files. *)
Record env := Env {
  home : str;
  run_git : list str -> files -> Z * files
}.

(** The files and the lines printed so far. *)
Record world := World { fs : files; console : list str }.

(** The exceptions the script lets escape. *)
Inductive exn :=
| CalledProcessError (code : Z) (cmd : list str)
| FileNotFoundError (path : str)
| SameFileError (path : str).

(** A call returns, leaves through [sys.exit], or raises. *)
Inductive outcome (A : Type) :=
| Ok (a : A) (w : world)
| Exit (code : Z) (w : world)
| Raise (e : exn) (w : world).
Arguments Ok {A} a w.
Arguments Exit {A} code w.
Arguments Raise {A} e w.

Definition M (A : Type) : Type := env -> world -> outcome A.

Global Instance M_ret : MRet M := fun A a _ w => Ok a w.
Global Instance M_bind : MBind M := fun A B f m e w =>
  match m e w with
  | Ok a w' => f a e w'
  | Exit code w' => Exit code w'
  | Raise x w' => Raise x w'
  end.

Definition ask : M env := fun e w => Ok e w.
Definition print (line : str) : M unit :=
  fun _ w => Ok tt (World (fs w) (console w ++ [line])).
Definition raise {A} (x : exn) : M A := fun _ w => Raise x w.

(** [path.exists()] *)
Definition exists_ (path : str) : M bool :=
  fun _ w => Ok (bool_decide (is_Some (fs w !! path))) w.

(** [open(path, "r")] followed by [f.read()] *)
Definition read_file (path : str) : M str :=
  fun _ w =>
    match fs w !! path with
    | Some text => Ok text w
    | None => Raise (FileNotFoundError path) w
    end.

(** [open(path, "w")] followed by [f.write(text)] *)
Definition write_file (path text : str) : M unit :=
  fun _ w => Ok tt (World (<[path := text]> (fs w)) (console w)).




(** [a / b] on paths, for a relative [b]. *)
Definition path_join (a b : str) : str := a ++ utf8 "/" ++ b.

(** [REPO = Path.home() / "kdvol.github.io"] *)
Definition REPO (e : env) : str := path_join (home e) (utf8 "kdvol.github.io").

(** The truth value of a text: the empty text is false. *)
Definition truthy (s : str) : bool :=
  match s with
  | [] => false
  | _ :: _ => true
  end.

(** [sorted(l, key=key)]: a stable sort. *)
Fixpoint insert_by {A} (key : A -> nat) (x : A) (l : list A) : list A :=
  match l with
  | [] => [x]
  | y :: more =>
    if key x <? key y then x :: l else y :: insert_by key x more
  end.


(** ** Main index update *)

(** The marker of a today section of the main index: its date and title. *)
Definition today_heading (date_fmt : str) : str := date_fmt ++ utf8 " 전체 콘텐츠".

(** The opening line of a today grid. *)
Definition grid_open : str :=
  utf8 "<div class=" ++ dq ++ utf8 "today-grid" ++ dq ++ utf8 " style=" ++ dq
    ++ utf8 "grid-template-columns:1fr; gap:10px;" ++ dq ++ utf8 ">".


(** [c[:at] + text + c[at:]] for an index that is not negative. *)
Definition insert_at (c : str) (at_ : Z) (text : str) : str :=
  take (Z.to_nat at_) c ++ text ++ drop (Z.to_nat at_) c.

(** The label "Latest" of the Hero and the address of its frame. *)
Definition hero_label (date_fmt : str) : str := utf8 "Latest &mdash; " ++ date_fmt.
Definition hero_frame (y md : str) : str :=
  utf8 "/newsletters/" ++ y ++ utf8 "/" ++ md ++ utf8 ".html" ++ dq
    ++ utf8 " title=" ++ dq ++ utf8 "순살브리핑 최신호" ++ dq.

(** Update Hero label and iframe. *)
Definition update_hero (c old_yyyy old_mmdd old_date_fmt date_fmt y md : str) : str :=
  let c := str_replace c (hero_label old_date_fmt) (hero_label date_fmt) in
  str_replace c (hero_frame old_yyyy old_mmdd) (hero_frame y md).

(** Insert the old briefing link at the beginning of the old date's grid. *)
Definition backfill (c old_yyyy old_mmdd old_date_fmt old_html : str) : str :=
  let old_kw := extract_keywords old_html briefing in
  let old_brief_link :=
    build_link (utf8 "/newsletters/" ++ old_yyyy ++ utf8 "/" ++ old_mmdd ++ utf8 ".html")
               (MAIN_TAGS briefing) (utf8 "순살브리핑") old_kw in
  let grid_marker :=
    today_heading old_date_fmt ++ utf8 "</div>" ++ nl
      ++ utf8 "  " ++ grid_open ++ nl in
  let pos := str_find grid_marker c in
  if (0 <=? pos)%Z
  then insert_at c (pos + Z.of_nat (length grid_marker)) (utf8 "    " ++ old_brief_link ++ nl)
  else c.

(** Step 1: Briefing, update Hero and add old briefing link. *)
Definition step_hero (c : str) (has_briefing : bool) (date_fmt y md : str) : M str :=
  match get_hero_info c with
  | Some (old_yyyy, old_mmdd, old_date_fmt) =>
    if has_briefing && truthy old_yyyy && truthy old_mmdd then
      let c := update_hero c old_yyyy old_mmdd old_date_fmt date_fmt y md in
      e ← ask;
      let old_brief_path :=
        path_join (path_join (path_join (REPO e) (utf8 "newsletters")) old_yyyy)
                  (old_mmdd ++ utf8 ".html") in
      present ← exists_ old_brief_path;
      if present : bool then
        old_html ← read_file old_brief_path;
        mret (backfill c old_yyyy old_mmdd old_date_fmt old_html)
      else mret c
    else mret c
  | None => mret c
  end.










(** ** Archive index update *)

(** The title line of a date section of an archive index. *)
Definition archive_title (date_str : str) : str :=
  utf8 "<div class=" ++ dq ++ utf8 "today-title" ++ dq ++ utf8 ">" ++ date_str
    ++ utf8 "</div>".

(** The opening of a date section of an archive index. *)
Definition archive_today : str :=
  utf8 "  <div class=" ++ dq ++ utf8 "today" ++ dq ++ utf8 ">".

(** The closing of a grid and of its section, on an archive index. *)
Definition grid_close_archive : str := utf8 "    </div>" ++ nl ++ utf8 "  </div>".

(** The link of an item on its archive index. *)
Definition archive_link (i : item) : str :=
  build_link (utf8 "/" ++ deploy_path i) (ARCHIVE_TAGS (type i)) (LABELS (type i))
             (keywords i).

(** A new date section with one link. *)
Definition new_section (date_str link : str) : str :=
  archive_today ++ nl
    ++ utf8 "    " ++ archive_title date_str ++ nl
    ++ utf8 "    " ++ grid_open ++ nl
    ++ utf8 "      " ++ link ++ nl
    ++ utf8 "    </div>" ++ nl
    ++ utf8 "  </div>" ++ nl ++ nl.

(** The text of an archive index after the update for one item. *)
Definition archive_text (c : str) (i : item) : str :=
  let date_str := date_formatted i in
  let date_exists := contains (archive_title date_str) c in
  let link := archive_link i in
  if date_exists then
    (* Append to existing date section (6-space indent) *)
    let pos := str_find (archive_title date_str) c in
    if (0 <=? pos)%Z then
      let grid_end := str_find_from grid_close_archive c pos in
      if (0 <=? grid_end)%Z
      then insert_at c grid_end (utf8 "      " ++ link ++ nl)
      else c
    else c
  else
    (* New date section: insert before the first today section *)
    let first_today := str_find archive_today c in
    if (0 <=? first_today)%Z
    then insert_at c first_today (new_section date_str link)
    else c.

(** Update the relevant archive index (newsletters, cardnews, or english). *)
Definition update_archive_index (i : item) : M unit :=
  e ← ask;
  let archive_path := path_join (path_join (REPO e) (directory i)) (utf8 "index.html") in
  present ← exists_ archive_path;
  if negb present then
    print (utf8 "  ⚠️  " ++ directory i ++ utf8 "/index.html not found, skipping")
  else
    c ← read_file archive_path;
    write_file archive_path (archive_text c i);;
    print (utf8 "  ✅ " ++ directory i ++ utf8 "/index.html").

(** ** Main *)












(** ** Vocabulary of the statements *)

(** [p] occurs in [s]; [p] occurs in [s] at index [i]; the first occurrence
    of [p] in [s] is at index [i]. *)
Definition occurs (p s : str) : Prop := ∃ pre post, s = pre ++ p ++ post.
Definition occurs_at (p s : str) (i : nat) : Prop :=
  i ≤ length s ∧ p `prefix_of` drop i s.
Definition first_at (p s : str) (i : nat) : Prop :=
  occurs_at p s i ∧ ∀ j, j < i → ¬ occurs_at p s j.

(** The pattern of a rule of [TYPES], and what [detect_type] answers for it. *)
Definition rule_pattern (r : rule) : str := r.1.1.1.
Definition rule_result (r : rule) : ctype * str * str := (r.1.1.2, r.1.2, r.2).

(** The texts a pattern matches, with the texts of its groups: what the
    pattern means, apart from the order in which a matcher tries things. *)
Inductive matches : regex → str → list str → Prop :=
| matches_lit p : matches (Lit p) p []
| matches_rep p lo hi greedy w :
    Forall (λ c, p c = true) w →
    lo ≤ length w →
    (∀ h, hi = Some h → length w ≤ h) →
    matches (Rep p lo hi greedy) w []
| matches_cat r1 r2 w1 w2 g1 g2 :
    matches r1 w1 g1 →
    matches r2 w2 g2 →
    matches (Cat r1 r2) (w1 ++ w2) (g1 ++ g2)
| matches_grp r w g :
    matches r w g →
    matches (Grp r) w (w :: g).

(** [r] matches somewhere in [s]: at index [i], the text [w]. *)
Definition matches_at (r : regex) (s : str) (i : nat) (w : str) (g : list str) : Prop :=
  i ≤ length s ∧ w `prefix_of` drop i s ∧ matches r w g.

(** A text of decimal digits, and a run of eight of them at index [i]. *)
Definition digits (w : str) : Prop := Forall (λ c, is_digit c = true) w.
Definition date_run (s : str) (i : nat) (d : str) : Prop :=
  i ≤ length s ∧ d `prefix_of` drop i s ∧ length d = 8 ∧ digits d.

(** A text has a border when one of its proper suffixes, not empty, is also
    one of its prefixes; then two occurrences of it can overlap. *)
Definition bordered (l : str) : bool :=
  existsb (λ k, startswith (drop k l) l) (seq 1 (length l - 1)).

(** White space that is not empty, and a text without a line feed. *)
Definition spaces (w : str) : Prop := w ≠ [] ∧ Forall (λ c, is_space c = true) w.
Definition one_line (w : str) : Prop := Forall (λ c, not_newline c = true) w.

(** The three things [extract_keywords] looks for, as texts: a keywords
    meta tag [w] with the content [v], a story heading [w] with the inner
    text [body], a title element [w] with the inner text [body]. *)
Definition meta_tag (w v : str) : Prop :=
  ∃ ws1 ws2,
    w = utf8 "<meta" ++ ws1 ++ meta_name ++ ws2 ++ meta_content ++ v ++ dq
    ∧ spaces ws1 ∧ spaces ws2
    ∧ v ≠ [] ∧ Forall (λ c, not_char 34%N c = true) v.

Definition story_open : str :=
  utf8 "<h2 class=" ++ dq ++ utf8 "story-title" ++ dq ++ utf8 ">".

Definition story_heading (w body : str) : Prop :=
  w = story_open ++ body ++ utf8 "</h2>" ∧ one_line body.

Definition title_element (w body : str) : Prop :=
  w = utf8 "<title>" ++ body ++ utf8 "</title>" ∧ one_line body.

(** A document has one of them somewhere; none of them starts before the
    end of [pre]. *)
Definition has (P : str → str → Prop) (s : str) : Prop :=
  ∃ pre w x post, s = pre ++ w ++ post ∧ P w x.
Definition leftmost (P : str → str → Prop) (s pre : str) : Prop :=
  ∀ pre' w' x' post', s = pre' ++ w' ++ post' → P w' x' → length pre ≤ length pre'.

(** The separator a loop over [seps] stops at: the first of the list that
    occurs in the text. *)
Definition chosen_sep (seps : list str) (t sep : str) : Prop :=
  ∃ l1 l2, seps = l1 ++ sep :: l2 ∧ occurs sep t ∧ ∀ x, x ∈ l1 → ¬ occurs x t.

(** How often a character stands in a text. *)
Definition count_char (x : char) (s : list char) : nat :=
  length (filter (λ c, c = x) s).

(** [p] starts nowhere in the first [n] places of [s]: a check that runs. *)
Definition starts_nowhere (p s : str) (n : nat) : bool :=
  forallb (λ j, negb (startswith p (drop j s))) (seq 0 n).

(** No proper suffix of [p], other than the empty one, is a prefix of [b]:
    an occurrence of [p] cannot begin before [b] and end inside it. *)
Definition enters_nowhere (p b : str) : bool :=
  forallb (λ k, negb (startswith (drop k p) b)) (seq 1 (length p - 1)).

(** A date section of an archive index with its links. *)
Definition date_section (date_str : str) (links : list str) : str :=
  archive_today ++ nl
    ++ utf8 "    " ++ archive_title date_str ++ nl
    ++ utf8 "    " ++ grid_open ++ nl
    ++ concat ((λ link, utf8 "      " ++ link ++ nl) <$> links)
    ++ grid_close_archive ++ nl ++ nl.

(** The path of the archive index of an item. *)
Definition archive_path (e : env) (i : item) : str :=
  path_join (path_join (REPO e) (directory i)) (utf8 "index.html").

(** The line [update_archive_index] prints when it has written the index. *)
Definition archive_done (i : item) : str :=
  utf8 "  ✅ " ++ directory i ++ utf8 "/index.html".

(** ** Sample inputs *)

(** An environment whose version-control client always succeeds and leaves
    the files alone. *)
Definition env0 : env := Env (utf8 "/home/u") (λ _ files, (0%Z, files)).

(** The crypto newsletter of 2 March 2026. *)
Definition crypto_0302 : item :=
  Item crypto (utf8 "newsletters") (utf8 "2026") (utf8 "0302") (utf8 "2026.03.02")
       (utf8 "BTC") (utf8 "newsletters/2026/0302-crypto.html").

(** An archive index with one date section, and one with none. *)
Definition archive_one_section : str :=
  utf8 "<body>" ++ nl
    ++ date_section (utf8 "2026.03.01") [utf8 "<a>old</a>"]
    ++ utf8 "</body>".
Definition archive_no_section : str := utf8 "<body>" ++ nl ++ utf8 "</body>".

(** A world with just one archive index. *)
Definition archive_world (c : str) : world :=
  World {[ archive_path env0 crypto_0302 := c ]} [].

(** An item whose keywords hold the closing of a grid. *)
Definition crypto_closing : item :=
  Item crypto (utf8 "newsletters") (utf8 "2026") (utf8 "0302") (utf8 "2026.03.02")
       (utf8 "x" ++ grid_close_archive) (utf8 "newsletters/2026/0302-crypto.html").







(** The link the back-fill makes for the briefing of 1 March. *)
Definition old_brief_link : str :=
  build_link (utf8 "/newsletters/2026/0301.html") (MAIN_TAGS briefing)
             (utf8 "순살브리핑") (utf8 "old news").

(** The order of a sort by key. *)
Definition key_le {A} (key : A → nat) (a b : A) : Prop := key a ≤ key b.







(** A title with a brand before a dash, and a page where the prefix that
    goes is longer than the brand. *)
Definition page_title_example : str := utf8 "<title>순살카드뉴스 — 이번 주 시황</title>".
Definition page_title_two_seps : str := utf8 "<title>A | B — C</title>".

(** * Properties of the text operations *)

Section text.
Implicit Types (p s t pre post : str) (i j k : nat).

Lemma startswith_prefix p s : startswith p s = true ↔ p `prefix_of` s.
Proof.
  revert s. induction p as [|a p IH]; intros [|b s]; simpl.
  - split; [intros _; apply prefix_nil | done].
  - split; [intros _; apply prefix_nil | done].
  - split; [done | intros H; by apply prefix_nil_not in H].
  - rewrite andb_true_iff, N.eqb_eq, IH. split.
    + intros [-> H]. by apply prefix_cons.
    + intros H. split; [by apply prefix_cons_inv_1 in H | by apply prefix_cons_inv_2 in H].
Qed.

Lemma startswith_app p t : startswith p (p ++ t) = true.
Proof. apply startswith_prefix. by exists t. Qed.

Lemma startswith_false p s : startswith p s = false ↔ ¬ p `prefix_of` s.
Proof. rewrite <- startswith_prefix. by destruct (startswith p s). Qed.

Lemma startswith_true_drop p s :
  startswith p s = true → s = p ++ drop (length p) s.
Proof.
  intros [t ->]%startswith_prefix. by rewrite drop_app_length.
Qed.

Lemma occurs_at_0 p s : occurs_at p s 0 ↔ p `prefix_of` s.
Proof. unfold occurs_at. simpl. split; [tauto | split; [lia | done]]. Qed.

Lemma occurs_at_S p c s i : occurs_at p (c :: s) (S i) ↔ occurs_at p s i.
Proof. unfold occurs_at. simpl. split; intros [? ?]; split; auto; lia. Qed.

Lemma occurs_at_app p pre post : occurs_at p (pre ++ p ++ post) (length pre).
Proof.
  split; [rewrite length_app; lia |].
  rewrite drop_app_length. by exists post.
Qed.

Lemma occurs_at_split p s i :
  occurs_at p s i ↔ ∃ post, s = take i s ++ p ++ post ∧ i ≤ length s.
Proof.
  split.
  - intros [Hi [post Hp]]. exists post. split; [|done].
    by rewrite <- Hp, take_drop.
  - intros (post & Hs & Hi). split; [done|]. exists post.
    rewrite Hs at 1. rewrite drop_app_length'; [done|].
    rewrite length_take. lia.
Qed.


Lemma occurs_iff p s : occurs p s ↔ ∃ i, occurs_at p s i.
Proof.
  split.
  - intros (pre & post & ->). exists (length pre). apply occurs_at_app.
  - intros [i (post & Hs & _)%occurs_at_split]. by exists (take i s), post.
Qed.

(** [index_of] finds the first occurrence. *)
Lemma index_of_Some p s i : index_of p s = Some i ↔ first_at p s i.
Proof.
  revert i. induction s as [|c s IH]; intros i; simpl.
  - destruct (startswith p []) eqn:E.
    + split.
      * intros [= <-]. split; [by apply occurs_at_0, startswith_prefix | lia].
      * intros [_ Hmin]. destruct i; [done|].
        destruct (Hmin 0%nat); [lia | by apply occurs_at_0, startswith_prefix].
    + split; [done|]. intros [[Hi Hp] _]. simpl in Hi.
      assert (i = 0%nat) as -> by lia. simpl in Hp.
      apply startswith_prefix in Hp. congruence.
  - destruct (startswith p (c :: s)) eqn:E.
    + split.
      * intros [= <-]. split; [by apply occurs_at_0, startswith_prefix | lia].
      * intros [_ Hmin]. destruct i; [done|].
        destruct (Hmin 0%nat); [lia | by apply occurs_at_0, startswith_prefix].
    + destruct i as [|i].
      * split; [by destruct (index_of p s) |].
        intros [H%occurs_at_0%startswith_prefix _]. congruence.
      * rewrite fmap_Some. split.
        -- intros (i' & Hi' & [= ->]). apply IH in Hi' as [Ho Hmin].
           split; [by apply occurs_at_S|].
           intros [|j] Hj.
           ++ intros H%occurs_at_0%startswith_prefix. congruence.
           ++ rewrite occurs_at_S. apply Hmin. lia.
        -- intros [Ho Hmin]. exists i. split; [|done]. apply IH.
           split; [by apply occurs_at_S in Ho|].
           intros j Hj Hoj. apply (Hmin (S j)); [lia | by apply occurs_at_S].
Qed.

Lemma index_of_None p s : index_of p s = None ↔ ¬ occurs p s.
Proof.
  rewrite occurs_iff. induction s as [|c s IH]; simpl.
  - destruct (startswith p []) eqn:E.
    + split; [done|]. intros []. exists 0%nat. by apply occurs_at_0, startswith_prefix.
    + split; [|done]. intros _ [i [Hi Hp]]. simpl in Hi.
      assert (i = 0%nat) as -> by lia. apply startswith_prefix in Hp. simpl in Hp. congruence.
  - destruct (startswith p (c :: s)) eqn:E.
    + split; [done|]. intros []. exists 0%nat. by apply occurs_at_0, startswith_prefix.
    + rewrite fmap_None, IH. split.
      * intros Hn [[|i] Hi].
        -- apply occurs_at_0, startswith_prefix in Hi. congruence.
        -- apply Hn. exists i. by apply occurs_at_S in Hi.
      * intros Hn [i Hi]. apply Hn. exists (S i). by apply occurs_at_S.
Qed.

Lemma contains_true p s : contains p s = true ↔ occurs p s.
Proof.
  unfold contains. destruct (index_of p s) as [i|] eqn:E.
  - split; [|done]. intros _. apply index_of_Some in E as [Ho _].
    apply occurs_iff. by exists i.
  - split; [done|]. intros H. by apply index_of_None in E.
Qed.

Lemma contains_false p s : contains p s = false ↔ ¬ occurs p s.
Proof. rewrite <- contains_true. by destruct (contains p s). Qed.

Lemma first_at_unique p s i j : first_at p s i → first_at p s j → i = j.
Proof.
  intros [Hi Hmi] [Hj Hmj].
  destruct (Nat.lt_trichotomy i j) as [H|[H|H]]; [|done|].
  - by destruct (Hmj i).
  - by destruct (Hmi j).
Qed.

Lemma str_find_first p s i : first_at p s i → str_find p s = Z.of_nat i.
Proof. intros H%index_of_Some. unfold str_find. by rewrite H. Qed.

Lemma str_find_none p s : ¬ occurs p s → str_find p s = (-1)%Z.
Proof. intros H%index_of_None. unfold str_find. by rewrite H. Qed.

End text.

(** * The classifier *)

Lemma detect_type_in_first rules filename l1 r l2 :
  rules = l1 ++ r :: l2 →
  occurs (rule_pattern r) filename →
  (∀ r', r' ∈ l1 → ¬ occurs (rule_pattern r') filename) →
  detect_type_in rules filename = Some (rule_result r).
Proof.
  intros -> Hr. induction l1 as [|r' l1 IH]; intros Hl1.
  - destruct r as [[[p ct] d] sf]. apply contains_true in Hr.
    unfold rule_pattern in Hr. simpl in *. by rewrite Hr.
  - pose proof (Hl1 r' ltac:(left)) as Hr'. apply contains_false in Hr'.
    destruct r' as [[[p' ct'] d'] sf']. unfold rule_pattern in Hr'.
    simpl in *. rewrite Hr'.
    apply IH. intros r'' Hin. apply Hl1. by right.
Qed.

Lemma detect_type_in_none rules filename :
  (∀ r, r ∈ rules → ¬ occurs (rule_pattern r) filename) →
  detect_type_in rules filename = None.
Proof.
  induction rules as [|[[[p ct] d] sf] rules IH]; intros H; [done|].
  pose proof (H (p, ct, d, sf) ltac:(left)) as Hp. apply contains_false in Hp.
  unfold rule_pattern in Hp. simpl in *. rewrite Hp.
  apply IH. intros r Hin. apply H. by right.
Qed.

(** C3. [detect_type] tries the rules of [TYPES] in their order and answers
    with the first rule whose pattern occurs anywhere in the filename; a
    filename in which the crypto card-news pattern occurs is a crypto card,
    whatever surrounds the pattern; with no pattern in the filename the
    answer is None. *)
Theorem detect_type_first_match (filename : str) :
  (∀ l1 r l2,
      TYPES = l1 ++ r :: l2 →
      occurs (rule_pattern r) filename →
      (∀ r', r' ∈ l1 → ¬ occurs (rule_pattern r') filename) →
      detect_type filename = Some (rule_result r))
  ∧ (occurs (utf8 "순살크립토카드뉴스") filename →
      detect_type filename = Some (crypto_card, utf8 "cardnews", utf8 "-crypto"))
  ∧ ((∀ r, r ∈ TYPES → ¬ occurs (rule_pattern r) filename) →
      detect_type filename = None).
Proof.
  split; [|split].
  - intros l1 r l2. apply detect_type_in_first.
  - intros H.
    apply (detect_type_in_first TYPES filename []
             (utf8 "순살크립토카드뉴스", crypto_card, utf8 "cardnews", utf8 "-crypto")
             (tail TYPES)); [reflexivity | exact H |].
    intros r' Hin. by apply elem_of_nil in Hin.
  - apply detect_type_in_none.
Qed.

(** A crypto card-news file is not taken for a crypto newsletter, although
    the pattern of the crypto newsletter occurs in its name as well. *)
Lemma detect_type_first_match_witness :
  occurs (utf8 "순살크립토") (utf8 "순살크립토카드뉴스_20260302.html")
  ∧ detect_type (utf8 "순살크립토카드뉴스_20260302.html")
    = Some (crypto_card, utf8 "cardnews", utf8 "-crypto").
Proof.
  split.
  - by exists [], (utf8 "카드뉴스_20260302.html").
  - apply (proj1 (proj2 (detect_type_first_match _))).
    by exists [], (utf8 "_20260302.html").
Defined.

(** * The matcher *)

Section matcher.
Implicit Types (r : regex) (p : char → bool) (s t w : str) (a : attempt).

Lemma run_length_le p hi s : run_length p hi s ≤ length s.
Proof.
  revert hi. induction s as [|c s IH]; intros hi; simpl; [lia|].
  case_bool_decide; [lia|]. destruct (p c); [|lia]. specialize (IH (Nat.pred <$> hi)). lia.
Qed.

Lemma run_length_bound p h s : run_length p (Some h) s ≤ h.
Proof.
  revert h. induction s as [|c s IH]; intros h; simpl; [lia|].
  case_bool_decide; [lia|]. destruct (p c); [|lia].
  destruct h as [|h]; [done|]. simpl. specialize (IH h). lia.
Qed.

Lemma run_length_Forall p hi s :
  Forall (λ c, p c = true) (take (run_length p hi s) s).
Proof.
  revert hi. induction s as [|c s IH]; intros hi; simpl; [constructor|].
  case_bool_decide; [constructor|]. destruct (p c) eqn:E; [|constructor].
  simpl. constructor; [done | apply IH].
Qed.

Lemma run_length_max p hi w t :
  Forall (λ c, p c = true) w →
  (∀ h, hi = Some h → length w ≤ h) →
  length w ≤ run_length p hi (w ++ t).
Proof.
  revert hi. induction w as [|c w IH]; intros hi Hw Hhi; simpl; [lia|].
  inversion_clear Hw as [|? ? Hc Hw'].
  case_bool_decide as E.
  { specialize (Hhi _ E). simpl in Hhi. lia. }
  rewrite Hc. apply le_n_S, IH; [done|].
  intros h Hh. destruct hi as [[|h']|]; simpl in *; try done.
  injection Hh as <-. specialize (Hhi _ eq_refl). lia.
Qed.


Lemma elem_of_rep_counts lo n greedy k :
  k ∈ rep_counts lo n greedy ↔ lo ≤ k ≤ n.
Proof.
  unfold rep_counts. destruct greedy.
  - rewrite elem_of_reverse, elem_of_seq. lia.
  - rewrite elem_of_seq. lia.
Qed.

Lemma Forall_take_le {A} (P : A → Prop) (l : list A) k n :
  k ≤ n → Forall P (take n l) → Forall P (take k l).
Proof.
  intros Hk H. replace (take k l) with (take k (take n l)).
  - by apply Forall_take.
  - rewrite take_take. f_equal. lia.
Qed.

(** Every attempt of the matcher is a match of the pattern. *)
Theorem attempts_sound r s a :
  a ∈ attempts r s →
  s = whole a ++ rest a ∧ matches r (whole a) (groups a).
Proof.
  revert s a. induction r as [p|p lo hi greedy|r1 IH1 r2 IH2|r IH]; intros s a; simpl.
  - destruct (startswith p s) eqn:E; [|by intros ?%elem_of_nil].
    intros ->%list_elem_of_singleton. simpl. split; [|constructor].
    by apply startswith_true_drop.
  - intros (k & -> & Hk%elem_of_rep_counts)%list_elem_of_fmap. simpl.
    split; [by rewrite take_drop|].
    pose proof (run_length_le p hi s) as Hle.
    constructor.
    + apply (Forall_take_le _ _ k (run_length p hi s)); [lia | apply run_length_Forall].
    + rewrite length_take. lia.
    + intros h ->. rewrite length_take. pose proof (run_length_bound p h s). lia.
  - intros (a1 & (a2 & -> & Ha2)%list_elem_of_fmap & Ha1)%list_elem_of_bind. simpl.
    apply IH1 in Ha1 as [Hs1 Hm1]. apply IH2 in Ha2 as [Hs2 Hm2].
    split; [|by constructor].
    rewrite Hs1, Hs2 at 1. by rewrite <- app_assoc.
  - intros (a1 & -> & Ha1)%list_elem_of_fmap. simpl.
    apply IH in Ha1 as [Hs Hm]. split; [done | by constructor].
Qed.

(** Every match of the pattern at the start of the text is an attempt. *)
Theorem attempts_complete r w g t :
  matches r w g → Attempt g w t ∈ attempts r (w ++ t).
Proof.
  intros Hm. revert t. induction Hm as
    [p|p lo hi greedy w Hw Hlo Hhi|r1 r2 w1 w2 g1 g2 _ IH1 _ IH2|r w g _ IH];
    intros t; simpl.
  - rewrite startswith_app, drop_app_length. apply list_elem_of_singleton. done.
  - apply list_elem_of_fmap. exists (length w). split.
    + by rewrite take_app_length, drop_app_length.
    + apply elem_of_rep_counts. split; [done|]. by apply run_length_max.
  - apply list_elem_of_bind. exists (Attempt g1 w1 (w2 ++ t)). split.
    + apply list_elem_of_fmap. exists (Attempt g2 w2 t). split; [|apply IH2].
      simpl. done.
    + rewrite <- app_assoc. apply IH1.
  - apply list_elem_of_fmap. exists (Attempt g w t). split; [done | apply IH].
Qed.

Lemma match_at_sound r s a :
  match_at r s = Some a → s = whole a ++ rest a ∧ matches r (whole a) (groups a).
Proof.
  unfold match_at. intros H. apply attempts_sound.
  destruct (attempts r s); simplify_eq/=. left.
Qed.

Lemma match_at_None r s :
  match_at r s = None ↔ ∀ w g, w `prefix_of` s → ¬ matches r w g.
Proof.
  unfold match_at. split.
  - intros H w g [t ->] Hm. apply (attempts_complete _ _ _ t) in Hm.
    destruct (attempts r (w ++ t)); [by apply elem_of_nil in Hm | done].
  - intros H. destruct (attempts r s) as [|a l] eqn:E; [done|]. exfalso.
    destruct (attempts_sound r s a) as [Hs Hm]; [rewrite E; left|].
    apply (H (whole a) (groups a)); [by exists (rest a) | done].
Qed.

Lemma match_at_is_Some r s w g :
  w `prefix_of` s → matches r w g → is_Some (match_at r s).
Proof.
  intros Hw Hm. destruct (match_at r s) eqn:E; [done|].
  rewrite match_at_None in E. by destruct (E w g).
Qed.

(** [search] reports the match at the leftmost index where one exists. *)
Lemma search_go_Some r pre s f :
  search_go r pre s = Some f ↔
  ∃ i, i ≤ length s ∧ before f = reverse pre ++ take i s
       ∧ match_at r (drop i s) = Some (hit f)
       ∧ ∀ j, j < i → match_at r (drop j s) = None.
Proof.
  revert pre. induction s as [|c s IH]; intros pre; simpl.
  - destruct (match_at r []) as [a|] eqn:E.
    + split.
      * intros [= <-]. exists 0. simpl. rewrite app_nil_r. repeat split; auto; lia.
      * intros (i & Hi & Hb & Hm & _). assert (i = 0) as -> by lia. simpl in *.
        rewrite app_nil_r in Hb. destruct f; simpl in *. congruence.
    + split; [done|]. intros (i & Hi & _ & Hm & _). assert (i = 0) as -> by lia.
      simpl in Hm. congruence.
  - destruct (match_at r (c :: s)) as [a|] eqn:E.
    + split.
      * intros [= <-]. exists 0. simpl. rewrite app_nil_r. repeat split; auto; lia.
      * intros (i & Hi & Hb & Hm & Hmin). destruct i as [|i].
        -- simpl in *. rewrite app_nil_r in Hb. destruct f; simpl in *. congruence.
        -- specialize (Hmin 0 ltac:(lia)). simpl in Hmin. congruence.
    + rewrite IH. split.
      * intros (i & Hi & Hb & Hm & Hmin). exists (S i). simpl.
        repeat split; [lia | | done |].
        -- rewrite Hb, reverse_cons, <- app_assoc. done.
        -- intros [|j] Hj; simpl; [done | apply Hmin; lia].
      * intros ([|i] & Hi & Hb & Hm & Hmin); simpl in *; [congruence|].
        exists i. repeat split; [lia | | done |].
        -- rewrite Hb, reverse_cons, <- app_assoc. done.
        -- intros j Hj. apply (Hmin (S j)). lia.
Qed.

Lemma search_Some r s f :
  search r s = Some f ↔
  ∃ i, i ≤ length s ∧ before f = take i s
       ∧ match_at r (drop i s) = Some (hit f)
       ∧ ∀ j, j < i → match_at r (drop j s) = None.
Proof. unfold search. rewrite search_go_Some. done. Qed.

Lemma search_go_None r pre s :
  search_go r pre s = None ↔ ∀ j, j ≤ length s → match_at r (drop j s) = None.
Proof.
  revert pre. induction s as [|c s IH]; intros pre; simpl.
  - destruct (match_at r []) eqn:E.
    + split; [done|]. intros H. specialize (H 0 ltac:(lia)). simpl in H. congruence.
    + split; [|done]. intros _ j Hj. by assert (j = 0) as -> by lia.
  - destruct (match_at r (c :: s)) eqn:E.
    + split; [done|]. intros H. specialize (H 0 ltac:(lia)). simpl in H. congruence.
    + rewrite IH. split.
      * intros H [|j] Hj; simpl; [done | apply H; lia].
      * intros H j Hj. apply (H (S j)). lia.
Qed.

Lemma search_None r s :
  search r s = None ↔ ∀ i w g, ¬ matches_at r s i w g.
Proof.
  unfold search. rewrite search_go_None. split.
  - intros H i w g (Hi & Hw & Hm). specialize (H i Hi).
    rewrite match_at_None in H. by apply (H w g).
  - intros H j Hj. apply match_at_None. intros w g Hw Hm.
    apply (H j w g). by repeat split.
Qed.


(** A search at the leftmost index of a match reports what the matcher
    finds there. *)
Lemma search_leftmost r pre t a :
  match_at r t = Some a →
  (∀ j, j < length pre → match_at r (drop j (pre ++ t)) = None) →
  search r (pre ++ t) = Some (Found pre a).
Proof.
  intros Hm Hmin. apply search_Some. exists (length pre). simpl.
  rewrite take_app_length, drop_app_length, length_app. repeat split; auto; lia.
Qed.

End matcher.

(** * Matches found without backtracking *)

Section priorities.
Implicit Types (r : regex) (p : char → bool) (s t w : str) (a : attempt).

Lemma match_at_lit l t : match_at (Lit l) (l ++ t) = Some (Attempt [] l t).
Proof. unfold match_at. simpl. by rewrite startswith_app, drop_app_length. Qed.

Lemma match_at_lit_None l s : ¬ l `prefix_of` s → match_at (Lit l) s = None.
Proof. intros H%startswith_false. unfold match_at. simpl. by rewrite H. Qed.

Lemma match_at_cat r1 r2 s a1 a2 :
  match_at r1 s = Some a1 →
  match_at r2 (rest a1) = Some a2 →
  match_at (Cat r1 r2) s
  = Some (Attempt (groups a1 ++ groups a2) (whole a1 ++ whole a2) (rest a2)).
Proof.
  unfold match_at. simpl. intros H1 H2.
  destruct (attempts r1 s) as [|a1' l1]; simplify_eq/=.
  destruct (attempts r2 (rest a1)) as [|a2' l2]; simplify_eq/=. done.
Qed.

Lemma match_at_cat_lit l r t a :
  match_at r t = Some a →
  match_at (Cat (Lit l) r) (l ++ t)
  = Some (Attempt (groups a) (l ++ whole a) (rest a)).
Proof.
  intros H. by rewrite (match_at_cat _ _ _ (Attempt [] l t) a); [|apply match_at_lit|].
Qed.


Lemma rep_counts_exact n greedy : rep_counts n n greedy = [n].
Proof.
  unfold rep_counts. replace (S n - n) with 1 by lia. by destruct greedy.
Qed.

Lemma rep_counts_short lo n greedy : n < lo → rep_counts lo n greedy = [].
Proof.
  intros H. unfold rep_counts. replace (S n - lo) with 0 by lia. by destruct greedy.
Qed.


(** [p{n}] takes [n] characters of the class. *)
Lemma match_at_rep_exact p n greedy w t :
  Forall (λ c, p c = true) w → length w = n →
  match_at (Rep p n (Some n) greedy) (w ++ t) = Some (Attempt [] w t).
Proof.
  intros Hw Hn. unfold match_at. cbn [attempts].
  assert (run_length p (Some n) (w ++ t) = n) as ->.
  { pose proof (run_length_bound p n (w ++ t)).
    pose proof (run_length_max p (Some n) w t Hw) as Hmax.
    assert (length w ≤ run_length p (Some n) (w ++ t)); [|lia].
    apply Hmax. intros h [= <-]. lia. }
  rewrite rep_counts_exact. simpl. subst n.
  by rewrite take_app_length, drop_app_length.
Qed.


End priorities.

(** Inversion of [matches] on a pattern that is given. *)
Ltac inv_matches :=
  repeat match goal with
  | H : matches (Cat _ _) _ _ |- _ => inversion H; clear H; subst
  | H : matches (Grp _) _ _ |- _ => inversion H; clear H; subst
  | H : matches (Lit _) _ _ |- _ => inversion H; clear H; subst
  | H : matches (Rep _ _ _ _) _ _ |- _ => inversion H; clear H; subst
  end.

(** Texts whose length is known and small, written out. *)
Ltac fixed_lengths :=
  repeat match goal with
  | H : ∀ h, Some ?n = Some h → _ |- _ => specialize (H _ eq_refl)
  | H1 : ?n ≤ length ?x, H2 : length ?x ≤ ?n |- _ =>
    assert (length x = n) by lia; clear H1 H2
  | H : length ?x = 0 |- _ => apply nil_length_inv in H; subst x
  | H : length ?x = S _ |- _ =>
    destruct x; [discriminate H|]; simpl in H; apply Nat.succ_inj in H
  | H : Forall _ (_ :: _) |- _ => apply Forall_cons in H as [? ?]
  | H : Forall _ [] |- _ => clear H
  end.

(** * The date of a filename *)

Lemma digits_app a b : digits (a ++ b) ↔ digits a ∧ digits b.
Proof. apply Forall_app. Qed.

Lemma matches_grp_rep_exact p n greedy w :
  Forall (λ c, p c = true) w → length w = n →
  matches (Grp (Rep p n (Some n) greedy)) w [w].
Proof.
  intros Hw Hn. constructor. constructor; [done | lia |].
  intros h [= <-]. lia.
Qed.

Lemma matches_re_date w g :
  matches re_date w g ↔
  length w = 8 ∧ digits w ∧ g = [take 4 w; take 2 (drop 4 w); drop 6 w].
Proof.
  split.
  - intros H. unfold re_date in H. inv_matches. fixed_lengths.
    split; [done|]. split; [|done].
    unfold digits in *. repeat (apply Forall_cons; split); naive_solver.
  - intros (Hl & Hd & ->).
    assert (w = take 4 w ++ take 2 (drop 4 w) ++ drop 6 w) as Hw.
    { replace (drop 6 w) with (drop 2 (drop 4 w)) by (by rewrite drop_drop).
      by rewrite !take_drop. }
    rewrite Hw at 1. unfold re_date.
    apply (matches_cat _ _ _ _ [_] [_; _]);
      [|apply (matches_cat _ _ _ _ [_] [_])];
      apply matches_grp_rep_exact;
      rewrite ?length_take, ?length_drop; try lia;
      auto using Forall_take, Forall_drop.
Qed.

Lemma match_at_re_date d t :
  length d = 8 → digits d →
  match_at re_date (d ++ t)
  = Some (Attempt [take 4 d; take 2 (drop 4 d); drop 6 d] d t).
Proof.
  intros Hl Hd.
  assert (is_Some (match_at re_date (d ++ t))) as [a Ha].
  { apply (match_at_is_Some _ _ d [take 4 d; take 2 (drop 4 d); drop 6 d]).
    - by exists t.
    - by apply matches_re_date. }
  rewrite Ha. f_equal.
  apply match_at_sound in Ha as [Hs (Hl' & _ & Hg)%matches_re_date].
  assert (whole a = d) as Hw.
  { apply (f_equal (take 8)) in Hs.
    rewrite !take_app_length' in Hs by done. done. }
  destruct a as [g w r]. simpl in *. subst w g. f_equal.
  by apply app_inv_head in Hs.
Qed.

Lemma date_run_matches s i d :
  date_run s i d ↔ ∃ g, matches_at re_date s i d g.
Proof.
  unfold date_run, matches_at. split.
  - intros (Hi & Hp & Hl & Hd). eexists. repeat split; [done..|].
    by apply matches_re_date.
  - intros (g & Hi & Hp & (Hl & Hd & _)%matches_re_date). done.
Qed.

Lemma date_run_forallb s i d :
  date_run s i d → forallb is_digit (take 8 (drop i s)) = true.
Proof.
  intros (_ & [t ->] & Hl & Hd). rewrite take_app_length' by done.
  apply forallb_forall. intros c Hc%list_elem_of_In.
  unfold digits in Hd. rewrite Forall_forall in Hd. auto.
Qed.

(** C4. [extract_date] finds the first run of eight digits of the filename
    and splits it into the year, the month and day, and the date written
    with dots; with no run of eight digits anywhere in the filename the
    answer is None. *)
Theorem extract_date_first_run (filename : str) :
  (∀ i d,
      date_run filename i d →
      (∀ j d', j < i → ¬ date_run filename j d') →
      extract_date filename
      = Some (take 4 d, drop 4 d,
              take 4 d ++ utf8 "." ++ take 2 (drop 4 d) ++ utf8 "." ++ drop 6 d))
  ∧ ((∀ i d, ¬ date_run filename i d) → extract_date filename = None).
Proof.
  split.
  - intros i d (Hi & [t Ht] & Hl & Hd) Hmin. unfold extract_date.
    rewrite <- (take_drop i filename), Ht.
    rewrite (search_leftmost _ _ _ _ (match_at_re_date d t Hl Hd)).
    + unfold date_parts, group. simpl.
      replace (drop 6 d) with (drop 2 (drop 4 d)) by (by rewrite drop_drop).
      by rewrite take_drop.
    + intros j Hj. rewrite length_take in Hj.
      rewrite <- Ht, take_drop. apply match_at_None. intros w g Hw Hm.
      apply (Hmin j w); [lia|]. apply date_run_matches. exists g.
      repeat split; [lia | done..].
  - intros Hno. unfold extract_date.
    assert (search re_date filename = None) as ->; [|done].
    apply search_None. intros i w g Hm. apply (Hno i w).
    apply date_run_matches. by exists g.
Qed.

(** The example of the docstring. *)
Lemma extract_date_first_run_witness :
  extract_date (utf8 "순살브리핑_20260302.html")
  = Some (utf8 "2026", utf8 "0302", utf8 "2026.03.02").
Proof.
  apply (proj1 (extract_date_first_run (utf8 "순살브리핑_20260302.html"))
           6 (utf8 "20260302")).
  - repeat split; [vm_compute; lia | by exists (utf8 ".html") | ].
    by repeat constructor.
  - intros j d' Hj H%date_run_forallb.
    do 6 (destruct j as [|j]; [by vm_compute in H|]). lia.
Defined.

(** * Lazy repetitions, scans and splits *)

Section lazy.
Implicit Types (r : regex) (p : char → bool) (s t w : str) (a : attempt).

Lemma head_bind_first {A B} (f : A → list B) (l1 : list A) x l2 y :
  (∀ z, z ∈ l1 → f z = []) →
  head (f x) = Some y →
  head ((l1 ++ x :: l2) ≫= f) = Some y.
Proof.
  intros Hl1 Hx. induction l1 as [|z l1 IH]; simpl.
  - destruct (f x); simplify_eq/=. done.
  - rewrite (Hl1 z) by left. simpl. apply IH. intros z' Hz'. apply Hl1. by right.
Qed.

(** A lazy [p*?] followed by a literal stops at the first place where the
    literal stands, if the class reaches that far. *)
Lemma match_at_lazy p (l : str) body t :
  Forall (λ c, p c = true) body →
  (∀ j, j < length body → ¬ l `prefix_of` drop j (body ++ l ++ t)) →
  match_at (Cat (Grp (Rep p 0 None false)) (Lit l)) (body ++ l ++ t)
  = Some (Attempt [body] (body ++ l) t).
Proof.
  intros Hb Hmin. unfold match_at. cbn [attempts].
  set (s := body ++ l ++ t). set (n := run_length p None s).
  assert (length body ≤ n) as Hn.
  { apply run_length_max; [done | by intros h [=]]. }
  unfold rep_counts.
  replace (S n - 0) with (length body + S (n - length body)) by lia.
  rewrite seq_app. cbn [seq]. rewrite !fmap_app, !fmap_cons.
  apply head_bind_first.
  - intros a (a' & -> & (k & -> & Hk%elem_of_seq)%list_elem_of_fmap)%list_elem_of_fmap.
    simpl. assert (startswith l (drop k s) = false) as ->; [|done].
    apply startswith_false, Hmin. lia.
  - simpl. unfold s. rewrite take_app_length, drop_app_length.
    by rewrite startswith_app, drop_app_length.
Qed.

(** With no match anywhere, a scan returns the characters. *)
Lemma scan_no_match r s :
  (∀ j, j ≤ length s → match_at r (drop j s) = None) →
  scan r 0 s = inl <$> s.
Proof.
  induction s as [|c s IH]; intros H; simpl.
  - pose proof (H 0 ltac:(simpl; lia)) as H0. simpl in H0. by rewrite H0.
  - pose proof (H 0 ltac:(simpl; lia)) as H0. simpl in H0. rewrite H0.
    f_equal. apply IH. intros j Hj. apply (H (S j)). simpl. lia.
Qed.

Lemma findall_no_match r s :
  (∀ i w g, ¬ matches_at r s i w g) → findall r s = [].
Proof.
  intros H. unfold findall. rewrite scan_no_match.
  - clear H. induction s as [|c s IH]; [done | exact IH].
  - apply (search_go_None r []). change (search r s = None). by apply search_None.
Qed.

Lemma sub_no_match r repl s :
  (∀ i w g, ¬ matches_at r s i w g) → sub r repl s = s.
Proof.
  intros H. unfold sub. rewrite scan_no_match.
  - clear H. induction s as [|c s IH]; [done|]. simpl. f_equal. apply IH.
  - apply (search_go_None r []). change (search r s = None). by apply search_None.
Qed.

End lazy.

Section splits.
Implicit Types (s t sep cur : str).

Lemma split_go_done sep skip cur s :
  split_go sep (Some 0) skip cur s = [reverse cur ++ drop skip s].
Proof.
  revert skip cur. induction s as [|c s IH]; intros skip cur; simpl.
  - by rewrite drop_nil, app_nil_r.
  - destruct skip as [|k]; simpl.
    + rewrite IH. simpl. by rewrite reverse_cons, <- app_assoc.
    + apply IH.
Qed.

Lemma split_go_first sep limit cur s i :
  sep ≠ [] → limit ≠ Some 0 → first_at sep s i →
  split_go sep limit 0 cur s
  = (reverse cur ++ take i s)
      :: split_go sep (Nat.pred <$> limit) (length sep - 1) [] (drop (S i) s).
Proof.
  intros Hsep Hlim. revert cur i.
  induction s as [|c s IH]; intros cur i [Ho Hmin].
  - destruct Ho as [_ Hp]. rewrite drop_nil in Hp.
    apply prefix_nil_inv in Hp. done.
  - simpl. rewrite bool_decide_true by done. simpl.
    destruct i as [|i].
    + apply occurs_at_0, startswith_prefix in Ho. rewrite Ho.
      simpl. by rewrite app_nil_r.
    + assert (startswith sep (c :: s) = false) as ->.
      { apply startswith_false. intros H. apply (Hmin 0); [lia|]. by apply occurs_at_0. }
      rewrite (IH (c :: cur) i).
      * simpl. by rewrite reverse_cons, <- app_assoc.
      * split; [by apply occurs_at_S in Ho|].
        intros j Hj Hoj. apply (Hmin (S j)); [lia | by apply occurs_at_S].
Qed.

(** [s.split(sep)[0]]: the text before the first separator. *)
Lemma split_head s sep i :
  sep ≠ [] → first_at sep s i →
  head (str_split s sep None) = Some (take i s).
Proof.
  intros Hsep Hi. unfold str_split. by rewrite (split_go_first _ _ _ _ i).
Qed.

(** [s.split(sep, 1)[-1]]: the text after the first separator. *)
Lemma split_last s sep i :
  sep ≠ [] → first_at sep s i →
  last (str_split s sep (Some 1)) = Some (drop (i + length sep) s).
Proof.
  intros Hsep Hi. unfold str_split. rewrite (split_go_first _ _ _ _ i) by done.
  simpl. rewrite split_go_done. simpl. rewrite drop_drop.
  destruct sep; [done|]. simpl. do 2 f_equal. lia.
Qed.

End splits.

Section borders.
Implicit Types (s t l body : str).

Lemma no_straddle l body t :
  bordered l = false →
  ¬ occurs l body →
  ∀ j, j < length body → ¬ l `prefix_of` drop j (body ++ l ++ t).
Proof.
  intros Hb Hno j Hj Hp.
  rewrite drop_app_le in Hp by lia.
  destruct (prefix_weak_total l (drop j body) (drop j body ++ l ++ t) Hp) as [H|H].
  { by exists (l ++ t). }
  - apply Hno. destruct H as [x Hx]. exists (take j body), x.
    by rewrite <- Hx, take_drop.
  - destruct H as [y Hy]. rewrite Hy in Hp.
    apply prefix_app_inv in Hp. rewrite <- Hy in Hp.
    assert (length (drop j body) + length y = length l) as Hlen.
    { by rewrite Hy, length_app. }
    assert (0 < length (drop j body)) by (rewrite length_drop; lia).
    destruct (decide (y = [])) as [->|Hy0].
    { apply Hno. exists (take j body), []. rewrite app_nil_r in Hy.
      by rewrite app_nil_r, Hy, take_drop. }
    assert (0 < length y) by (destruct y; [done | simpl; lia]).
    assert (y `prefix_of` l) as Hyl.
    { destruct (prefix_weak_total y l (l ++ t) Hp) as [|H']; [by exists t | done |].
      apply prefix_length in H'. lia. }
    unfold bordered in Hb. rewrite <- not_true_iff_false in Hb. apply Hb.
    apply existsb_exists. exists (length (drop j body)). split.
    + apply in_seq. lia.
    + apply startswith_prefix. rewrite Hy at 1. by rewrite drop_app_length.
Qed.

Lemma first_at_app l body t :
  bordered l = false → ¬ occurs l body → first_at l (body ++ l ++ t) (length body).
Proof.
  intros Hb Hno. split; [apply occurs_at_app|].
  intros j Hj [_ Hp]. by apply (no_straddle l body t Hb Hno j).
Qed.

End borders.

(** * The summary of a page *)

Section found_things.
Variables (r : regex) (P : str → str → Prop).
Hypothesis matches_P : ∀ w g, matches r w g → ∃ x, P w x.
Hypothesis P_matches : ∀ w x, P w x → ∃ g, matches r w g.

Lemma matches_at_has s i w g : matches_at r s i w g → has P s.
Proof using matches_P.
  intros (Hi & [t Ht] & Hm). destruct (matches_P w g Hm) as [x Hx].
  exists (take i s), w, x, t. split; [|done]. by rewrite <- Ht, take_drop.
Qed.

Lemma no_has_no_match s : ¬ has P s → ∀ i w g, ¬ matches_at r s i w g.
Proof using matches_P. intros H i w g Hm. by apply H, (matches_at_has s i w g). Qed.

Lemma no_has_search s : ¬ has P s → search r s = None.
Proof using matches_P. intros H. by apply search_None, no_has_no_match. Qed.

Lemma search_None_no_has s : search r s = None → ¬ has P s.
Proof using P_matches.
  rewrite search_None. intros H (pre & w & x & post & -> & HP).
  destruct (P_matches w x HP) as [g Hg].
  apply (H (length pre) w g). split; [rewrite length_app; lia|].
  split; [|done]. rewrite drop_app_length. by exists post.
Qed.

Lemma leftmost_no_match s pre :
  leftmost P s pre → ∀ j, j < length pre → match_at r (drop j s) = None.
Proof using matches_P.
  intros Hl j Hj. apply match_at_None. intros w g [t Ht] Hm.
  destruct (matches_P w g Hm) as [x Hx].
  specialize (Hl (take j s) w x t). rewrite length_take in Hl.
  assert (length pre ≤ j `min` length s); [|lia].
  apply Hl; [|done]. by rewrite <- Ht, take_drop.
Qed.

End found_things.

(** Checks that run, for texts that are given. *)
Lemma Forall_forallb (p : char → bool) (w : str) :
  forallb p w = true → Forall (λ c, p c = true) w.
Proof.
  rewrite forallb_forall, Forall_forall. intros H c Hc. by apply H, list_elem_of_In.
Qed.

Lemma one_line_forallb w : forallb not_newline w = true → one_line w.
Proof. apply Forall_forallb. Qed.


Lemma spaces_length w : spaces w ↔ 1 ≤ length w ∧ Forall (λ c, is_space c = true) w.
Proof.
  unfold spaces. split; intros [H ?]; split; try done.
  - destruct w; [done | simpl; lia].
  - by destruct w; [simpl in H; lia|].
Qed.

Lemma matches_re_meta w g : matches re_meta w g ↔ ∃ v, meta_tag w v ∧ g = [v].
Proof.
  unfold re_meta, meta_tag. split.
  - intros H. inv_matches. eexists. split; [|reflexivity].
    do 2 eexists. split; [reflexivity|].
    rewrite !spaces_length. repeat split; try done.
    by match goal with H : 1 ≤ length ?v |- ?v ≠ [] => destruct v; [simpl in H; lia|] end.
  - intros (v & (ws1 & ws2 & -> & [? ?]%spaces_length & [? ?]%spaces_length & Hv & ?) & ->).
    assert (1 ≤ length v) by (destruct v; [done | simpl; lia]).
    apply (matches_cat _ _ _ _ [] [v]); [constructor|].
    apply (matches_cat _ _ _ _ [] [v]); [by constructor|].
    apply (matches_cat _ _ _ _ [] [v]); [constructor|].
    apply (matches_cat _ _ _ _ [] [v]); [by constructor|].
    apply (matches_cat _ _ _ _ [] [v]); [constructor|].
    apply (matches_cat _ _ _ _ [v] []); [|constructor].
    constructor. by constructor.
Qed.

Lemma matches_lazy_between a b w g :
  matches (Cat (Lit a) (Cat (Grp (Rep not_newline 0 None false)) (Lit b))) w g ↔
  ∃ body, w = a ++ body ++ b ∧ one_line body ∧ g = [body].
Proof.
  split.
  - intros H. inv_matches. eexists. by repeat split.
  - intros (body & -> & Hb & ->).
    apply (matches_cat _ _ _ _ [] [body]); [constructor|].
    apply (matches_cat _ _ _ _ [body] []); [|constructor].
    constructor. constructor; [done | lia | done].
Qed.

Lemma matches_re_story w g : matches re_story w g ↔ ∃ body, story_heading w body ∧ g = [body].
Proof.
  unfold re_story, story_heading. rewrite matches_lazy_between.
  split; [intros (body & ? & ? & ?) | intros (body & [? ?] & ?)]; by exists body.
Qed.

Lemma matches_re_title w g : matches re_title w g ↔ ∃ body, title_element w body ∧ g = [body].
Proof.
  unfold re_title, title_element. rewrite matches_lazy_between.
  split; [intros (body & ? & ? & ?) | intros (body & [? ?] & ?)]; by exists body.
Qed.


(** What the matcher reports at an element whose inner text does not hold
    the closing tag. *)
Lemma match_at_lazy_between a b body t :
  one_line body → bordered b = false → ¬ occurs b body →
  match_at (Cat (Lit a) (Cat (Grp (Rep not_newline 0 None false)) (Lit b)))
           (a ++ body ++ b ++ t)
  = Some (Attempt [body] (a ++ body ++ b) t).
Proof.
  intros Hb Hbord Hno.
  rewrite (match_at_cat_lit _ _ _ (Attempt [body] (body ++ b) t)); [done|].
  apply match_at_lazy; [done|]. by apply no_straddle.
Qed.

Lemma first_sep_chosen seps t sep : chosen_sep seps t sep → first_sep seps t = Some sep.
Proof.
  intros (l1 & l2 & -> & Ho%contains_true & Hl1).
  induction l1 as [|x l1 IH]; simpl.
  - by rewrite Ho.
  - assert (contains x t = false) as ->.
    { apply contains_false, Hl1. left. }
    apply IH. intros y Hy. apply Hl1. by right.
Qed.

Lemma first_sep_none seps t : (∀ sep, sep ∈ seps → ¬ occurs sep t) → first_sep seps t = None.
Proof.
  induction seps as [|x seps IH]; intros H; [done|]. simpl.
  assert (contains x t = false) as ->.
  { apply contains_false, H. left. }
  apply IH. intros y Hy. apply H. by right.
Qed.

Lemma chosen_sep_elem seps t sep : chosen_sep seps t sep → sep ∈ seps.
Proof. intros (l1 & l2 & -> & _). apply elem_of_app. right. left. Qed.

(** The patterns of [extract_keywords] and what they stand for. *)
Lemma meta_tag_matches w v : meta_tag w v → ∃ g, matches re_meta w g.
Proof. intros H. exists [v]. apply matches_re_meta. by exists v. Qed.

Lemma matches_meta_tag w g : matches re_meta w g → ∃ v, meta_tag w v.
Proof. intros (v & H & _)%matches_re_meta. by exists v. Qed.

Lemma story_heading_matches w b : story_heading w b → ∃ g, matches re_story w g.
Proof. intros H. exists [b]. apply matches_re_story. by exists b. Qed.

Lemma matches_story_heading w g : matches re_story w g → ∃ b, story_heading w b.
Proof. intros (b & H & _)%matches_re_story. by exists b. Qed.

Lemma title_element_matches w b : title_element w b → ∃ g, matches re_title w g.
Proof. intros H. exists [b]. apply matches_re_title. by exists b. Qed.

Lemma matches_title_element w g : matches re_title w g → ∃ b, title_element w b.
Proof. intros (b & H & _)%matches_re_title. by exists b. Qed.

(** C9. The content type passed to [extract_keywords] has no influence on
    its result: two calls on the same page with any two content types
    return the same summary. *)
Theorem extract_keywords_ignores_type (html : str) (t1 t2 : ctype) :
  extract_keywords html t1 = extract_keywords html t2.
Proof.
  unfold extract_keywords.
  destruct (search re_meta html) as [m|]; [reflexivity|].
  destruct (findall re_story html) as [|title titles]; [|reflexivity].
  destruct (search re_title html) as [m|]; reflexivity.
Qed.



(** C5, as the code has it. On a page where none of the three patterns
    matches (no keywords meta tag, no story heading, no title element)
    [extract_keywords] returns the text Untitled. *)
Theorem extract_keywords_fallback (html : str) (ct : ctype) :
  ¬ has meta_tag html →
  ¬ has story_heading html →
  ¬ has title_element html →
  extract_keywords html ct = utf8 "Untitled".
Proof.
  intros Hmeta Hstory Htitle. unfold extract_keywords.
  rewrite (no_has_search re_meta meta_tag matches_meta_tag html Hmeta).
  rewrite (findall_no_match re_story html
             (no_has_no_match re_story story_heading matches_story_heading html Hstory)).
  by rewrite (no_has_search re_title title_element matches_title_element html Htitle).
Qed.

Lemma extract_keywords_fallback_witness :
  extract_keywords (utf8 "<p>hello</p>") card = utf8 "Untitled".
Proof.
  apply extract_keywords_fallback.
  - by apply (search_None_no_has re_meta meta_tag meta_tag_matches).
  - by apply (search_None_no_has re_story story_heading story_heading_matches).
  - by apply (search_None_no_has re_title title_element title_element_matches).
Defined.

(** C5, as the claim has it, fails on a page whose title element is empty:
    no strategy produces a text that is not empty, and the result is the
    empty text, not Untitled. *)
Lemma extract_keywords_empty_title :
  let html := utf8 "<title></title>" in
  ¬ has meta_tag html
  ∧ ¬ has story_heading html
  ∧ title_element html []
  ∧ extract_keywords html card = []
  ∧ extract_keywords html card ≠ utf8 "Untitled".
Proof.
  split; [|split; [|split; [|split]]].
  - by apply (search_None_no_has re_meta meta_tag meta_tag_matches).
  - by apply (search_None_no_has re_story story_heading story_heading_matches).
  - split; [done | by apply one_line_forallb].
  - by vm_compute.
  - by vm_compute.
Qed.

(** Markup stripping leaves a text without an opening angle bracket as it is. *)
Lemma sub_re_tag_plain (s : str) : 60%N ∉ s → sub re_tag [] s = s.
Proof.
  intros Hs. apply sub_no_match. intros i w g (Hi & [t Ht] & Hm).
  unfold re_tag in Hm. inv_matches. apply Hs.
  rewrite <- (take_drop i s), Ht. apply elem_of_app. right. left.
Qed.

(** What [extract_keywords] does once the title element is found. *)
Lemma extract_keywords_title_step (html pre body post : str) (ct : ctype) :
  ¬ has meta_tag html →
  ¬ has story_heading html →
  html = pre ++ utf8 "<title>" ++ body ++ utf8 "</title>" ++ post →
  one_line body →
  ¬ occurs (utf8 "</title>") body →
  leftmost title_element html pre →
  extract_keywords html ct =
    let t := strip (sub re_tag [] body) in
    match first_sep title_seps t with
    | Some sep => strip (default [] (last (str_split t sep (Some 1))))
    | None => t
    end.
Proof.
  intros Hmeta Hstory -> Hline Hclose Hleft. unfold extract_keywords.
  rewrite (no_has_search re_meta meta_tag matches_meta_tag _ Hmeta).
  rewrite (findall_no_match re_story _
             (no_has_no_match re_story story_heading matches_story_heading _ Hstory)).
  rewrite (search_leftmost re_title pre _
             (Attempt [body] (utf8 "<title>" ++ body ++ utf8 "</title>") post)).
  - reflexivity.
  - by apply match_at_lazy_between.
  - apply (leftmost_no_match re_title title_element matches_title_element), Hleft.
Qed.

Lemma title_seps_not_empty sep : sep ∈ title_seps → sep ≠ [].
Proof.
  unfold title_seps. rewrite !elem_of_cons, elem_of_nil.
  intros [->|[->|[->|[->|[]]]]]; done.
Qed.

(** C7, as the code has it. On a page with no keywords meta tag and no
    story heading, [extract_keywords] takes the inner text of the first
    title element, strips its markup and its surrounding white space, and
    looks for the separators in the order spaced dash, spaced bar, dash,
    bar: with the first of these that occurs in the text, it returns what
    follows the first occurrence of that separator, stripped; with none, the
    text itself. The title of the example gives the summary of the example. *)
Theorem extract_keywords_title (html pre body post : str) (ct : ctype) :
  ¬ has meta_tag html →
  ¬ has story_heading html →
  html = pre ++ utf8 "<title>" ++ body ++ utf8 "</title>" ++ post →
  one_line body →
  ¬ occurs (utf8 "</title>") body →
  leftmost title_element html pre →
  let t := strip (sub re_tag [] body) in
  (∀ sep i,
      chosen_sep title_seps t sep → first_at sep t i →
      extract_keywords html ct = strip (drop (i + length sep) t))
  ∧ ((∀ sep, sep ∈ title_seps → ¬ occurs sep t) → extract_keywords html ct = t)
  ∧ (body = utf8 "순살카드뉴스 — 이번 주 시황" →
      extract_keywords html ct = utf8 "이번 주 시황").
Proof.
  intros Hmeta Hstory Hhtml Hline Hclose Hleft t.
  pose proof (extract_keywords_title_step html pre body post ct
                Hmeta Hstory Hhtml Hline Hclose Hleft) as Hstep.
  cbv zeta in Hstep. fold t in Hstep. split; [|split].
  - intros sep i Hsep Hi. rewrite Hstep, (first_sep_chosen _ _ _ Hsep).
    rewrite (split_last t sep i); [done | | done].
    by apply title_seps_not_empty, (chosen_sep_elem _ t).
  - intros Hnone. by rewrite Hstep, (first_sep_none _ _ Hnone).
  - intros Hbody. rewrite Hstep. unfold t. rewrite Hbody. by vm_compute.
Qed.

Lemma extract_keywords_title_witness :
  extract_keywords page_title_example card = utf8 "이번 주 시황".
Proof.
  apply (extract_keywords_title page_title_example [] (utf8 "순살카드뉴스 — 이번 주 시황") []).
  - by apply (search_None_no_has re_meta meta_tag meta_tag_matches).
  - by apply (search_None_no_has re_story story_heading story_heading_matches).
  - by vm_compute.
  - by apply one_line_forallb.
  - by apply contains_false.
  - intros pre' w' x' post' _ _. simpl. lia.
  - reflexivity.
Defined.

(** C7, as the claim has it, fails on a title with a bar before a dash: the
    first separator of the title is the bar, the text after it is B, dash,
    C, and [extract_keywords] returns C alone. *)
Lemma extract_keywords_title_two_seps :
  ¬ has meta_tag page_title_two_seps
  ∧ ¬ has story_heading page_title_two_seps
  ∧ title_element page_title_two_seps (utf8 "A | B — C")
  ∧ first_at (utf8 " | ") (utf8 "A | B — C") 1
  ∧ (∀ sep i, sep ∈ title_seps → occurs_at sep (utf8 "A | B — C") i → 1 ≤ i)
  ∧ extract_keywords page_title_two_seps card = utf8 "C"
  ∧ extract_keywords page_title_two_seps card ≠ utf8 "B — C".
Proof.
  split; [|split; [|split; [|split; [|split; [|split]]]]].
  - by apply (search_None_no_has re_meta meta_tag meta_tag_matches).
  - by apply (search_None_no_has re_story story_heading story_heading_matches).
  - split; [done | by apply one_line_forallb].
  - by apply index_of_Some.
  - intros sep [|i] Hsep [_ Hp%startswith_prefix]; [|lia].
    unfold title_seps in Hsep. rewrite !elem_of_cons, elem_of_nil in Hsep.
    by destruct Hsep as [->|[->|[->|[->|[]]]]].
  - by vm_compute.
  - by vm_compute.
Qed.

(** * Where a marker first stands in a text made of pieces *)

Section pieces.
Implicit Types (p s a b : str) (i j k : nat).

Lemma occurs_at_startswith p s j :
  occurs_at p s j ↔ j ≤ length s ∧ startswith p (drop j s) = true.
Proof. unfold occurs_at. by rewrite startswith_prefix. Qed.

Lemma occurs_at_app_r p a b j :
  occurs_at p (a ++ b) (length a + j) ↔ occurs_at p b j.
Proof.
  unfold occurs_at. rewrite length_app, drop_app_ge by lia.
  replace (length a + j - length a) with j by lia.
  split; intros [? ?]; split; auto; lia.
Qed.

Lemma first_at_here p b : p `prefix_of` b → first_at p b 0.
Proof. intros H. split; [by apply occurs_at_0 | lia]. Qed.

Lemma first_at_app_r p a b i :
  (∀ j, j < length a → ¬ occurs_at p (a ++ b) j) →
  first_at p b i →
  first_at p (a ++ b) (length a + i).
Proof.
  intros Ha [Hi Hmin]. split; [by apply occurs_at_app_r|].
  intros j Hj Hoj. destruct (decide (j < length a)) as [Hlt|Hge].
  - by apply (Ha j).
  - apply (Hmin (j - length a)); [lia|]. apply (occurs_at_app_r p a).
    by replace (length a + (j - length a)) with j by lia.
Qed.

(** An occurrence that starts in [a] lies in [a] or goes on into [b]. *)
Lemma occurs_at_cross p a b j :
  j < length a → occurs_at p (a ++ b) j →
  occurs p a
  ∨ ∃ k, 0 < k < length p ∧ take k p = drop j a ∧ drop k p `prefix_of` b.
Proof.
  intros Hj [_ Hp]. rewrite drop_app_le in Hp by lia.
  destruct (prefix_weak_total p (drop j a) (drop j a ++ b) Hp) as [[x Hx]|[y Hy]].
  { by exists b. }
  - left. exists (take j a), x. by rewrite <- Hx, take_drop.
  - destruct (decide (y = [])) as [->|Hy0].
    + left. exists (take j a), []. rewrite app_nil_r in Hy.
      by rewrite app_nil_r, Hy, take_drop.
    + right. exists (length (drop j a)).
      assert (0 < length (drop j a)) by (rewrite length_drop; lia).
      assert (0 < length y) by (destruct y; [done | simpl; lia]).
      rewrite Hy. rewrite length_app, take_app_length, drop_app_length.
      split; [lia|]. split; [done|].
      rewrite Hy in Hp. by apply prefix_app_inv in Hp.
Qed.

(** A piece that is given: the places are tried one by one. *)
Lemma starts_nowhere_spec p s n j :
  starts_nowhere p s n = true → j < n → ¬ occurs_at p s j.
Proof.
  unfold starts_nowhere. rewrite forallb_forall. intros H Hj [_ Hp%startswith_prefix].
  specialize (H j). rewrite Hp in H. simpl in H.
  assert (false = true); [|done]. apply H, in_seq. lia.
Qed.

(** A piece in which the marker does not occur, before a text the marker
    cannot enter. *)
Lemma no_start_free p a b j :
  ¬ occurs p a → enters_nowhere p b = true → j < length a →
  ¬ occurs_at p (a ++ b) j.
Proof.
  intros Hno Hb Hj Ho.
  destruct (occurs_at_cross p a b j Hj Ho) as [|(k & Hk & _ & Hp%startswith_prefix)]; [done|].
  unfold enters_nowhere in Hb. rewrite forallb_forall in Hb.
  specialize (Hb k). rewrite Hp in Hb. simpl in Hb.
  assert (false = true); [|done]. apply Hb, in_seq. lia.
Qed.

Lemma count_char_cons x c a :
  count_char x (c :: a) = (if decide (c = x) then 1 else 0) + count_char x a.
Proof. unfold count_char. rewrite filter_cons. by destruct (decide (c = x)). Qed.

Lemma count_char_app x a b : count_char x (a ++ b) = count_char x a + count_char x b.
Proof.
  induction a as [|c a IH]; [done|]. simpl app.
  rewrite !count_char_cons, IH. lia.
Qed.

Lemma count_char_none x a : x ∉ a → count_char x a = 0.
Proof.
  induction a as [|c a IH]; [done|]. rewrite not_elem_of_cons. intros [Hc Ha].
  rewrite count_char_cons, IH by done. by destruct (decide (c = x)).
Qed.

(** A marker that begins with two spaces starts nowhere in a piece with at
    most one space that does not end with a space. *)
Lemma no_start_two_spaces p s b j :
  count_char 32%N s ≤ 1 → last s ≠ Some 32%N → j < length s →
  ¬ occurs_at (32%N :: 32%N :: p) (s ++ b) j.
Proof.
  intros Hc Hl Hj [_ Hp]. rewrite drop_app_le in Hp by lia.
  rewrite <- (take_drop j s) in Hc, Hl.
  destruct (drop j s) as [|c [|c' x]] eqn:E.
  - apply (f_equal length) in E. rewrite length_drop in E. simpl in E. lia.
  - apply prefix_cons_inv_1 in Hp as <-. by rewrite last_snoc in Hl.
  - pose proof (prefix_cons_inv_1 _ _ _ _ Hp) as <-.
    apply prefix_cons_inv_2, prefix_cons_inv_1 in Hp as <-.
    rewrite count_char_app, !count_char_cons in Hc.
    rewrite !decide_True in Hc by done. lia.
Qed.

(** A marker with at most one space that does not end with a space cannot
    begin in a piece where it does not occur and go on into a text that
    begins with two spaces. *)
Lemma no_cross_two_spaces p a b j :
  count_char 32%N p ≤ 1 → last p ≠ Some 32%N → ¬ occurs p a → j < length a →
  ¬ occurs_at p (a ++ 32%N :: 32%N :: b) j.
Proof.
  intros Hc Hl Hno Hj Ho.
  destruct (occurs_at_cross p a _ j Hj Ho) as [|(k & Hk & _ & Hp)]; [done|].
  rewrite <- (take_drop k p) in Hc, Hl.
  destruct (drop k p) as [|c [|c' x]] eqn:E.
  - apply (f_equal length) in E. rewrite length_drop in E. simpl in E. lia.
  - apply prefix_cons_inv_1 in Hp as ->. by rewrite last_snoc in Hl.
  - pose proof (prefix_cons_inv_1 _ _ _ _ Hp) as ->.
    apply prefix_cons_inv_2, prefix_cons_inv_1 in Hp as ->.
    rewrite count_char_app, !count_char_cons in Hc.
    rewrite !decide_True in Hc by done. lia.
Qed.

Lemma not_elem_forallb (x : char) a : forallb (not_char x) a = true → x ∉ a.
Proof.
  rewrite forallb_forall. intros H Hx%list_elem_of_In. specialize (H x Hx).
  unfold not_char in H. by rewrite N.eqb_refl in H.
Qed.

Lemma occurs_app_l p a b : occurs p a → occurs p (a ++ b).
Proof. intros (x & y & ->). exists x, (y ++ b). by rewrite <- !app_assoc. Qed.

Lemma occurs_app_r p a b : occurs p b → occurs p (a ++ b).
Proof. intros (x & y & ->). exists (a ++ x), y. by rewrite <- !app_assoc. Qed.

Lemma str_find_from_first p s pos i :
  pos ≤ length s → first_at p (drop pos s) i →
  str_find_from p s (Z.of_nat pos) = Z.of_nat (pos + i).
Proof.
  intros Hpos Hi%index_of_Some. unfold str_find_from.
  destruct (Z.ltb_spec (Z.of_nat pos) 0); [lia|].
  destruct (Z.ltb_spec (Z.of_nat (length s)) (Z.of_nat pos)); [lia|].
  rewrite Nat2Z.id, Hi. lia.
Qed.

Lemma insert_at_app a b text :
  insert_at (a ++ b) (Z.of_nat (length a)) text = a ++ text ++ b.
Proof.
  unfold insert_at. by rewrite Nat2Z.id, take_app_length, drop_app_length.
Qed.

End pieces.

(** * The archive index *)

(** The splice both indexes make into a section that exists: find the
    title, find the closing of the grid after it, insert before it. *)
Lemma append_at_marker (c T E text X Y Z : str) :
  c = X ++ T ++ Y ++ E ++ Z →
  first_at T c (length X) →
  first_at E (T ++ Y ++ E ++ Z) (length T + length Y) →
  (let pos := str_find T c in
   if (0 <=? pos)%Z then
     let grid_end := str_find_from E c pos in
     if (0 <=? grid_end)%Z then insert_at c grid_end text else c
   else c)
  = X ++ T ++ Y ++ text ++ E ++ Z.
Proof.
  intros Hc HT HE. cbv zeta. rewrite (str_find_first T c (length X) HT).
  destruct (Z.leb_spec 0 (Z.of_nat (length X))); [|lia].
  rewrite (str_find_from_first E c (length X) (length T + length Y)).
  - destruct (Z.leb_spec 0 (Z.of_nat (length X + (length T + length Y)))); [|lia].
    rewrite Hc.
    replace (X ++ T ++ Y ++ E ++ Z) with ((X ++ T ++ Y) ++ E ++ Z)
      by (by rewrite <- !app_assoc).
    replace (length X + (length T + length Y)) with (length (X ++ T ++ Y))
      by (rewrite !length_app; lia).
    rewrite insert_at_app. by rewrite <- !app_assoc.
  - rewrite Hc, length_app. lia.
  - rewrite Hc, drop_app_length. exact HE.
Qed.

Section archive.
Variables (i : item) (pre post : str).
Let d := date_formatted i.
Let link := archive_link i.

(** The pieces of a date section around its title and its links. *)
Let lead : str := archive_today ++ nl ++ utf8 "    ".
Let grid : str := nl ++ utf8 "    " ++ grid_open ++ nl ++ utf8 "      ".
Let tail_ : str := nl ++ nl ++ archive_today ++ post.

Lemma new_section_date_section : new_section d link = date_section d [link].
Proof.
  unfold new_section, date_section, grid_close_archive.
  cbn [fmap list_fmap concat]. by rewrite <- !app_assoc.
Qed.

Lemma date_section_one :
  pre ++ date_section d [link] ++ archive_today ++ post
  = (pre ++ lead) ++ archive_title d ++ (grid ++ link ++ nl)
      ++ grid_close_archive ++ tail_.
Proof.
  unfold date_section, lead, grid, tail_.
  cbn [fmap list_fmap concat]. by rewrite <- !app_assoc, ?app_nil_r.
Qed.

Lemma date_section_two :
  (pre ++ lead) ++ archive_title d ++ (grid ++ link ++ nl)
      ++ (utf8 "      " ++ link ++ nl) ++ grid_close_archive ++ tail_
  = pre ++ date_section d [link; link] ++ archive_today ++ post.
Proof.
  unfold date_section, lead, grid, tail_.
  cbn [fmap list_fmap concat]. by rewrite <- !app_assoc, ?app_nil_r.
Qed.

Hypothesis date_no_space : 32%N ∉ d.

Lemma archive_title_spaces : count_char 32%N (archive_title d) ≤ 1.
Proof using date_no_space.
  unfold archive_title. rewrite !count_char_app, (count_char_none _ d date_no_space).
  vm_compute. lia.
Qed.

Lemma archive_title_last : last (archive_title d) ≠ Some 32%N.
Proof.
  unfold archive_title. rewrite !app_assoc, last_app. by vm_compute.
Qed.

(** The title of the new section is the first title of its date. *)
Lemma archive_title_first (rest : str) :
  ¬ occurs (archive_title d) pre →
  first_at (archive_title d) ((pre ++ lead) ++ archive_title d ++ rest)
           (length (pre ++ lead)).
Proof using date_no_space.
  intros Hno. rewrite <- app_assoc, length_app.
  apply first_at_app_r.
  - intros j Hj.
    change (lead ++ archive_title d ++ rest)
      with (32%N :: 32%N :: (drop 2 lead ++ archive_title d ++ rest)).
    apply no_cross_two_spaces;
      [apply archive_title_spaces | apply archive_title_last | done | done].
  - rewrite <- (Nat.add_0_r (length lead)). apply first_at_app_r.
    + intros j Hj. apply (starts_nowhere_spec _ _ (length lead)); [|done].
      by vm_compute.
    + apply first_at_here. by exists rest.
Qed.

Hypothesis link_plain : ¬ occurs grid_close_archive link.

(** The closing of the new section's grid is the first one after its title. *)
Lemma grid_close_first :
  first_at grid_close_archive
    (archive_title d ++ (grid ++ link ++ nl) ++ grid_close_archive ++ tail_)
    (length (archive_title d) + length (grid ++ link ++ nl)).
Proof using date_no_space link_plain.
  apply first_at_app_r.
  - intros j Hj.
    change grid_close_archive with (32%N :: 32%N :: drop 2 grid_close_archive).
    apply no_start_two_spaces;
      [apply archive_title_spaces | apply archive_title_last | done].
  - rewrite <- !app_assoc, !length_app. apply first_at_app_r.
    + intros j Hj. apply (starts_nowhere_spec _ _ (length grid)); [|done].
      by vm_compute.
    + apply first_at_app_r.
      * intros j Hj. apply no_start_free; [done | by vm_compute | done].
      * rewrite <- (Nat.add_0_r (length nl)). apply first_at_app_r.
        -- intros j Hj. apply (starts_nowhere_spec _ _ (length nl)); [|done].
           by vm_compute.
        -- apply first_at_here. by exists tail_.
Qed.

End archive.

Lemma update_archive_index_run (e : env) (w : world) (i : item) (c : str) :
  fs w !! archive_path e i = Some c →
  update_archive_index i e w
  = Ok tt (World (<[archive_path e i := archive_text c i]> (fs w))
                 (console w ++ [archive_done i])).
Proof.
  intros H. unfold archive_path in *.
  cbv [update_archive_index mbind M_bind ask exists_ read_file write_file print].
  rewrite H, bool_decide_true by done. cbv [negb]. by rewrite H.
Qed.

(** A first update for a date with no section: the new section goes before
    the first section of the index. *)
Lemma archive_text_new (c pre post : str) (i : item) :
  c = pre ++ archive_today ++ post →
  first_at archive_today c (length pre) →
  ¬ occurs (archive_title (date_formatted i)) c →
  archive_text c i
  = pre ++ date_section (date_formatted i) [archive_link i] ++ archive_today ++ post.
Proof.
  intros Hc Hfirst Hno. unfold archive_text.
  apply contains_false in Hno. rewrite Hno.
  rewrite (str_find_first _ _ _ Hfirst).
  destruct (Z.leb_spec 0 (Z.of_nat (length pre))); [|lia].
  rewrite Hc, insert_at_app. by rewrite new_section_date_section.
Qed.

(** A second update with the same item: the link goes to the end of the
    links of the section made by the first. *)
Lemma archive_text_again (pre post : str) (i : item) :
  ¬ occurs (archive_title (date_formatted i)) pre →
  32%N ∉ date_formatted i →
  ¬ occurs grid_close_archive (archive_link i) →
  archive_text
    (pre ++ date_section (date_formatted i) [archive_link i] ++ archive_today ++ post) i
  = pre ++ date_section (date_formatted i) [archive_link i; archive_link i]
      ++ archive_today ++ post.
Proof.
  intros Hno Hd Hlink. unfold archive_text.
  rewrite date_section_one.
  assert (contains (archive_title (date_formatted i))
            ((pre ++ archive_today ++ nl ++ utf8 "    ") ++ archive_title (date_formatted i)
               ++ ((nl ++ utf8 "    " ++ grid_open ++ nl ++ utf8 "      ")
                     ++ archive_link i ++ nl)
               ++ grid_close_archive ++ nl ++ nl ++ archive_today ++ post) = true) as ->.
  { apply contains_true. by eexists _, _. }
  rewrite (append_at_marker _ _ _ _ _ _ _ eq_refl).
  - apply date_section_two.
  - by apply archive_title_first.
  - by apply grid_close_first.
Qed.

(** C1, as the code has it. On an archive index that has a first section
    and no section for the date of the item, [update_archive_index] writes
    one new section with one link, the link of the item, before the first
    section; called again with the same item, when the date has no space
    and the link does not hold the closing of a grid, it finds that section
    and adds the link as its last link, with no second section. *)
Theorem update_archive_index_twice (e : env) (w : world) (i : item) (c pre post : str) :
  fs w !! archive_path e i = Some c →
  c = pre ++ archive_today ++ post →
  first_at archive_today c (length pre) →
  ¬ occurs (archive_title (date_formatted i)) c →
  32%N ∉ date_formatted i →
  ¬ occurs grid_close_archive (archive_link i) →
  ∃ w1 w2,
    update_archive_index i e w = Ok tt w1
    ∧ fs w1 !! archive_path e i
      = Some (pre ++ date_section (date_formatted i) [archive_link i]
                ++ archive_today ++ post)
    ∧ update_archive_index i e w1 = Ok tt w2
    ∧ fs w2 !! archive_path e i
      = Some (pre ++ date_section (date_formatted i) [archive_link i; archive_link i]
                ++ archive_today ++ post).
Proof.
  intros Hfile Hc Hfirst Hno Hd Hlink.
  eexists _, _. split; [by apply update_archive_index_run|].
  assert (∀ (m : gmap str str) k (v : str), <[k := v]> m !! k = Some v) as Hins.
  { intros. apply lookup_insert_eq. }
  split.
  { simpl. rewrite Hins. f_equal. by apply archive_text_new. }
  split.
  { apply update_archive_index_run. simpl. apply Hins. }
  simpl. rewrite Hins. f_equal.
  rewrite (archive_text_new c pre post i Hc Hfirst Hno).
  apply archive_text_again; [|done..].
  intros H. apply Hno. rewrite Hc. by apply occurs_app_l.
Qed.

Lemma update_archive_index_twice_witness :
  ∃ w1 w2,
    update_archive_index crypto_0302 env0 (archive_world archive_one_section) = Ok tt w1
    ∧ fs w1 !! archive_path env0 crypto_0302
      = Some ((utf8 "<body>" ++ nl)
                ++ date_section (utf8 "2026.03.02") [archive_link crypto_0302]
                ++ archive_today
                ++ drop (length archive_today)
                     (date_section (utf8 "2026.03.01") [utf8 "<a>old</a>"]
                        ++ utf8 "</body>"))
    ∧ update_archive_index crypto_0302 env0 w1 = Ok tt w2
    ∧ fs w2 !! archive_path env0 crypto_0302
      = Some ((utf8 "<body>" ++ nl)
                ++ date_section (utf8 "2026.03.02")
                     [archive_link crypto_0302; archive_link crypto_0302]
                ++ archive_today
                ++ drop (length archive_today)
                     (date_section (utf8 "2026.03.01") [utf8 "<a>old</a>"]
                        ++ utf8 "</body>")).
Proof.
  apply (update_archive_index_twice env0 (archive_world archive_one_section)
           crypto_0302 archive_one_section).
  - apply lookup_singleton_eq.
  - by vm_compute.
  - apply index_of_Some. by vm_compute.
  - apply contains_false. by vm_compute.
  - apply not_elem_forallb. by vm_compute.
  - apply contains_false. by vm_compute.
Defined.

(** C1, as the claim has it, fails on an archive index with no section yet:
    no section for the date exists, and the update writes the index back as
    it was, with no section for the date. *)
Lemma update_archive_index_no_section :
  ¬ occurs (archive_title (date_formatted crypto_0302)) archive_no_section
  ∧ update_archive_index crypto_0302 env0 (archive_world archive_no_section)
    = Ok tt (World {[ archive_path env0 crypto_0302 := archive_no_section ]}
                   [archive_done crypto_0302])
  ∧ ¬ occurs (archive_title (date_formatted crypto_0302))
        (archive_text archive_no_section crypto_0302).
Proof.
  split; [apply contains_false; by vm_compute|]. split.
  - rewrite (update_archive_index_run _ _ _ archive_no_section)
      by apply lookup_singleton_eq.
    unfold archive_world. simpl. rewrite insert_singleton_eq.
    do 2 f_equal; by vm_compute.
  - apply contains_false. by vm_compute.
Qed.

(** Why the second call needs a link without the closing of a grid: with
    such keywords the second link is spliced into the first. *)
Lemma archive_text_again_inside_link :
  let c1 := archive_text archive_one_section crypto_closing in
  archive_text c1 crypto_closing
  ≠ utf8 "<body>" ++ nl
      ++ date_section (utf8 "2026.03.02")
           [archive_link crypto_closing; archive_link crypto_closing]
      ++ date_section (utf8 "2026.03.01") [utf8 "<a>old</a>"]
      ++ utf8 "</body>".
Proof. by vm_compute. Qed.

(** * The main index *)

Section replace.
Implicit Types (s old new : str).



Lemma replace_go_none old new s :
  ¬ occurs old s → replace_go old new 0 s = s.
Proof.
  induction s as [|c s IH]; intros Hno; [done|]. simpl.
  assert (startswith old (c :: s) = false) as ->.
  { apply startswith_false. intros [t Ht]. apply Hno. exists [], t. by rewrite Ht. }
  f_equal. apply IH. intros (x & y & ->). apply Hno. by exists (c :: x), y.
Qed.

(** [s.replace(old, new)] with no occurrence of [old], and at the first
    occurrence of [old]. *)
Lemma str_replace_none s old new : ¬ occurs old s → str_replace s old new = s.
Proof.
  intros Hno. destruct old as [|c old].
  - destruct Hno. by exists [], s.
  - by apply replace_go_none.
Qed.


End replace.


Lemma hero_label_matches y m d :
  length y = 4 → length m = 2 → length d = 2 →
  digits y → digits m → digits d →
  matches re_hero (hero_label (y ++ utf8 "." ++ m ++ utf8 "." ++ d)) [y; m; d].
Proof.
  intros. unfold re_hero, hero_label.
  apply (matches_cat _ _ _ _ [] [y; m; d]); [constructor|].
  apply (matches_cat _ _ _ _ [y] [m; d]); [by apply matches_grp_rep_exact|].
  apply (matches_cat _ _ _ _ [] [m; d]); [constructor|].
  apply (matches_cat _ _ _ _ [m] [d]); [by apply matches_grp_rep_exact|].
  apply (matches_cat _ _ _ _ [] [d]); [constructor|].
  by apply matches_grp_rep_exact.
Qed.








(** Step 1 never fails and never writes. *)
Lemma step_hero_total e w c hb date_fmt y md :
  ∃ c1, step_hero c hb date_fmt y md e w = Ok c1 w.
Proof.
  unfold step_hero. destruct (get_hero_info c) as [[[oy omd] od]|]; [|by eexists].
  destruct (hb && truthy oy && truthy omd); [|by eexists].
  cbv [mbind M_bind ask exists_ mret M_ret read_file].
  destruct (fs w !! _) as [old_html|] eqn:E.
  - rewrite bool_decide_true by done. rewrite E. by eexists.
  - rewrite bool_decide_false by (by intros [? ?]). by eexists.
Qed.




(** * Briefings and the today sections *)

Section sorting.
Context {A : Type} (key : A → nat) (P : A → Prop) `{!∀ x, Decision (P x)}.

Lemma Forall_insert_by (Q : A → Prop) x (l : list A) :
  Forall Q (insert_by key x l) ↔ Q x ∧ Forall Q l.
Proof.
  induction l as [|z l IH]; simpl.
  - rewrite Forall_singleton. split; [intros ?; split; [done | constructor] | tauto].
  - destruct (key x <? key z).
    + by rewrite Forall_cons.
    + rewrite !Forall_cons, IH. tauto.
Qed.

Lemma insert_by_sorted x (l : list A) :
  StronglySorted (key_le key) l → StronglySorted (key_le key) (insert_by key x l).
Proof.
  induction 1 as [|z l Hs IH Hz]; simpl.
  - repeat constructor.
  - destruct (Nat.ltb_spec (key x) (key z)).
    + constructor; [by constructor|]. constructor; [unfold key_le; lia|].
      eapply Forall_impl; [exact Hz|]. unfold key_le. intros; simpl in *. lia.
    + constructor; [done|]. apply Forall_insert_by. split; [unfold key_le; lia | done].
Qed.

Lemma sorted_by_go_sorted (acc l : list A) :
  StronglySorted (key_le key) acc →
  StronglySorted (key_le key) (foldl (λ acc x, insert_by key x acc) acc l).
Proof.
  revert acc. induction l as [|x l IH]; intros acc Hacc; simpl; [done|].
  by apply IH, insert_by_sorted.
Qed.







End sorting.









(** * The run *)

Section no_exit.
Context {A B : Type}.




End no_exit.
























